(** * quart: quadtree image approximation (src/quart.py)

    A shallow embedding of the decomposition engine of [quart.py] and the
    proofs of its specified properties.

    Modelling conventions.
    - The program is Python 2 ([print] statements, [xrange]): [/] between
      two [int]s is floor division, modelled by [Z.div].
    - Python [int]s are [Z].  Python [float]s are modelled by the exact
      rationals [Q] they approximate: rounding is not modelled, equalities
      between floats are stated with [Qeq].
    - [area ** .25] is a C library call; it is the parameter [pow_quarter]
      of the scheduler and nothing is assumed about its values.
    - [Quadrant] objects are mutable and shared between the tree and the
      scheduler's heap: they live in an object store [objs] (a list indexed
      by allocation order) and are referred to by their index.
    - Python 2 orders instances of a classic class by address: [addr] gives
      the address of every object and nothing is assumed about it.
    - [PIL] and [heapq] are libraries: [PIL.Image] is modelled by a size and
      a pixel function, [heapq] by a transcription of CPython 2.7's
      [Lib/heapq.py].
    - Paths are strings; a picture [render] saves is the canvas it has
      drawn, and [recurse] returns the pictures it has saved, in order,
      each with its path. *)

From Stdlib Require Import ZArith QArith Qround Lia ZifyNat Lqa Ascii.
From Stdlib Require String DecimalString.
Import (notations) String.
From stdpp Require Import base option list numbers.

Local Open Scope Z_scope.

(** * The program *)

(** ** Python helpers *)

(** [sum(l)] over a list of ints. *)
Definition py_sum (l : list Z) : Z := foldr Z.add 0 l.

(** [range(a, b)]. *)
Definition py_range (a b : Z) : list Z := seqZ a (b - a).

(** [enumerate(l)]. *)
Definition enumerate {A} (l : list A) : list (Z * A) :=
  imap (fun i x => (Z.of_nat i, x)) l.

(** [l.pop()]: the last item and the list without it; [None] is the
    [IndexError] of an empty list. *)
Definition list_pop {A} (l : list A) : option (A * list A) :=
  match reverse l with
  | [] => None
  | x :: r => Some (x, reverse r)
  end.

(** [a / b] on ints: floor division; [None] is the [ZeroDivisionError]. *)
Definition py_floordiv (a b : Z) : option Z :=
  if b =? 0 then None else Some (a / b).

(** [int(x)] on a float: truncation towards zero. *)
Definition py_int (x : Q) : Z := Z.quot (Qnum x) (Zpos (Qden x)).

(** [x < y] on floats. *)
Definition Qlt_bool (x y : Q) : bool := negb (Qle_bool y x).

(** [str]: paths are strings of characters. *)
Module str.

(** [c in s] for a string [c] of one character. *)
Fixpoint contains (c : ascii) (s : String.string) : bool :=
  match s with
  | String.EmptyString => false
  | String.String a s => Ascii.eqb a c || contains c s
  end.

(** The text before the last [sep] of [s] and the text after it. *)
Fixpoint rpartition (sep : ascii) (s : String.string)
  : option (String.string * String.string) :=
  match s with
  | String.EmptyString => None
  | String.String a s =>
      match rpartition sep s with
      | Some (before, after) => Some (String.String a before, after)
      | None => if Ascii.eqb a sep then Some (String.EmptyString, s) else None
      end
  end.

(** [s.rsplit(sep, 1)] for a separator of one character. *)
Definition rsplit (s : String.string) (sep : ascii) : list String.string :=
  match rpartition sep s with
  | Some (before, after) => [before; after]
  | None => [s]
  end.

(** ['%06d' % i]: the decimal digits after the sign, filled up with
    zeros to six characters. *)
Definition format_06d (i : Z) : String.string :=
  let digits := DecimalString.NilZero.string_of_uint (N.to_uint (Z.abs_N i)) in
  let sign := if i <? 0 then "-"%string else ""%string in
  let fill := (6 - String.length sign - String.length digits)%nat in
  String.append sign
    (String.append (String.string_of_list_ascii (replicate fill "0"%char)) digits).

(** [bool(s)] for a string or [None]. *)
Definition truthy (s : option String.string) : bool :=
  match s with
  | None | Some String.EmptyString => false
  | Some _ => true
  end.

End str.

(** ** PIL *)

Module PIL.

Definition pixel : Type := Z * Z * Z.
Definition box : Type := Z * Z * Z * Z.

(** An RGB image: its size and its pixels. *)
Record Image := mkImage {
  size : nat * nat;
  data : Z -> Z -> pixel
}.

(** The pixel at [(x, y)]; a crop that leaves the image reads black. *)
Definition getpixel (im : Image) (x y : Z) : pixel :=
  if (0 <=? x) && (x <? Z.of_nat (fst (size im))) &&
     (0 <=? y) && (y <? Z.of_nat (snd (size im)))
  then data im x y else (0, 0, 0).

(** [im.crop((l, t, r, b))], as the row-major sequence of its pixels. *)
Definition crop (im : Image) (coords : box) : list pixel :=
  let '(l, t, r, b) := coords in
  y ← py_range t b; x ← py_range l r; [getpixel im x y].

Definition band (c : nat) (p : pixel) : Z :=
  let '(r, g, b) := p in
  match c with O => r | S O => g | _ => b end.

Definition count (c : nat) (px : list pixel) (i : Z) : Z :=
  Z.of_nat (length (filter (fun p => band c p = i) px)).

(** [quad.histogram()]: 256 counts per band, the bands one after
    another. *)
Definition histogram (px : list pixel) : list Z :=
  c ← [0; 1; 2]%nat; count c px <$> py_range 0 256.

(** What [ImageDraw] has drawn: the size given to [Image.new] and the
    [draw.rectangle] calls, in order. *)
Record Canvas := mkCanvas {
  canvas_size : Z * Z;
  rectangles : list (box * pixel)
}.

End PIL.

(** ** class Quadrant *)

Module Quadrant.

Definition MIN_LEAF_SIZE : Z := 4.

Record t := mk {
  coords : PIL.box;
  depth : Z;
  color_hist : list Z;
  area : Z;
  color : Z * Z * Z;
  error : Q;
  leaf : bool;
  children : list nat
}.

Definition compute_area (coords : PIL.box) : Z :=
  let '(l, t, r, b) := coords in
  (b - t) * (r - l).

Definition compute_avg_color_mse (hist : list Z) : option (Z * Z) :=
  let ttl := py_sum hist in
  let ttl := if ttl =? 0 then 1 else ttl in
  avg ← py_floordiv
           (py_sum ((fun '(i, num_pix) => i * num_pix) <$> enumerate hist)) ttl;
  mse ← py_floordiv
           (py_sum ((fun '(i, num_pix) => (avg - i) ^ 2 * num_pix) <$> enumerate hist))
           ttl;
  Some (avg, mse).

Definition compute_color (color_hist : list Z) : option (Z * Z * Z * Q) :=
  '(r, r_error) ← compute_avg_color_mse (take 256 color_hist);
  '(g, g_error) ← compute_avg_color_mse (take 256 (drop 256 color_hist));
  '(b, b_error) ← compute_avg_color_mse (drop 512 color_hist);
  let avg_error := (inject_Z (r_error + g_error + b_error) / 3)%Q in
  Some ((r, g, b), avg_error).

Definition is_leaf (coords : PIL.box) : bool :=
  let '(l, t, r, b) := coords in
  (r - l <? MIN_LEAF_SIZE) || (b - t <? MIN_LEAF_SIZE).

(** [Quadrant(quad_model, coords, depth)]; the image is all the
    constructor reads of [quad_model]. *)
Definition init (im : PIL.Image) (coords : PIL.box) (depth : Z) : option t :=
  let color_hist := PIL.histogram (PIL.crop im coords) in
  let area := compute_area coords in
  '(color, error) ← compute_color color_hist;
  Some (mk coords depth color_hist area color error (is_leaf coords) []).

Definition set_children (q : t) (children : list nat) : t :=
  mk (coords q) (depth q) (color_hist q) (area q) (color q) (error q)
     (leaf q) children.

(** The four rectangles of [split], in the order of [self.children]. *)
Definition split_coords (coords : PIL.box) : list PIL.box :=
  let '(l, t, r, b) := coords in
  let h_split := l + (r - l) / 2 in
  let v_split := t + (b - t) / 2 in
  [(l, t, h_split, v_split); (h_split, t, r, v_split);
   (l, v_split, h_split, b); (h_split, v_split, r, b)].

(** [self.split()] on the object [self] of the store: the four children
    are allocated at the end of the store, in order. *)
Definition split (im : PIL.Image) (objs : list t) (self : nat)
  : option (list nat * list t) :=
  q ← objs !! self;
  let depth := depth q + 1 in
  new ← mapM (fun c => init im c depth) (split_coords (coords q));
  let kids := seq (length objs) (length new) in
  Some (kids, <[self := set_children q kids]> (objs ++ new)).

(** [self.get_leaf_nodes()]; [fuel] bounds the depth of the recursion. *)
Fixpoint get_leaf_nodes (fuel : nat) (objs : list t) (self : nat)
  : option (list nat) :=
  match fuel with
  | O => None
  | S fuel =>
      q ← objs !! self;
      match children q with
      | [] => Some [self]
      | kids =>
          foldl (fun leaf_nodes child =>
                   acc ← leaf_nodes;
                   ls ← get_leaf_nodes fuel objs child;
                   Some (acc ++ ls))
                (Some []) kids
      end
  end.

End Quadrant.

(** ** heapq (CPython 2.7, Lib/heapq.py)

    [None] stands for an [IndexError]; the loops carry a bound on their
    number of iterations, which the callers set high enough. *)

Module heapq.
Section heapq.
Context {A : Type} (cmp_lt : A -> A -> bool).

(** The [while pos > startpos] loop of [_siftdown]. *)
Fixpoint _siftdown_loop (fuel : nat) (heap : list A) (startpos pos : nat)
    (newitem : A) : option (list A * nat) :=
  if decide (startpos < pos)%nat then
    match fuel with
    | O => None
    | S fuel =>
        let parentpos := ((pos - 1) / 2)%nat in
        parent ← heap !! parentpos;
        if cmp_lt newitem parent
        then _siftdown_loop fuel (<[pos := parent]> heap) startpos parentpos newitem
        else Some (heap, pos)
    end
  else Some (heap, pos).

Definition _siftdown (heap : list A) (startpos pos : nat) : option (list A) :=
  newitem ← heap !! pos;
  '(heap, pos) ← _siftdown_loop pos heap startpos pos newitem;
  Some (<[pos := newitem]> heap).

(** The [while childpos < endpos] loop of [_siftup]. *)
Fixpoint _siftup_loop (fuel : nat) (heap : list A) (endpos pos childpos : nat)
    : option (list A * nat) :=
  if decide (childpos < endpos)%nat then
    match fuel with
    | O => None
    | S fuel =>
        let rightpos := (childpos + 1)%nat in
        childpos ←
          (if decide (rightpos < endpos)%nat then
             l ← heap !! childpos;
             r ← heap !! rightpos;
             Some (if negb (cmp_lt l r) then rightpos else childpos)
           else Some childpos);
        c ← heap !! childpos;
        _siftup_loop fuel (<[pos := c]> heap) endpos childpos (2 * childpos + 1)%nat
    end
  else Some (heap, pos).

Definition _siftup (heap : list A) (pos : nat) : option (list A) :=
  let endpos := length heap in
  let startpos := pos in
  newitem ← heap !! pos;
  '(heap, pos) ← _siftup_loop endpos heap endpos pos (2 * pos + 1)%nat;
  _siftdown (<[pos := newitem]> heap) startpos pos.

Definition heappush (heap : list A) (item : A) : option (list A) :=
  let heap := heap ++ [item] in
  _siftdown heap 0 (length heap - 1).

Definition heappop (heap : list A) : option (A * list A) :=
  '(lastelt, heap) ← list_pop heap;
  match heap return option (A * list A) with
  | [] => Some (lastelt, heap)
  | returnitem :: _ =>
      heap ← _siftup (<[0%nat := lastelt]> heap) 0;
      Some (returnitem, heap)
  end.

End heapq.
End heapq.

(** ** class QuadImage *)

Module QuadImage.

Record t := mk {
  im : PIL.Image;
  width : Z;
  height : Z
}.

(** [QuadImage(image_path)], given the decoded RGB image. *)
Definition init (image : PIL.Image) : t :=
  let '(width, height) := PIL.size image in
  mk image (Z.of_nat width) (Z.of_nat height).

End QuadImage.

(** ** class QuadModel *)

Module QuadModel.
Section QuadModel.
(** [a ** .25] for a non-negative int [a]. *)
Variable pow_quarter : Z -> Q.
(** The address of the object at an index of the store. *)
Variable addr : nat -> Z.

Definition FRAME_THRESHOLD : Z := 50.
Definition QUAD_PADDING : Z := 1.
Definition PADDING_FILL : PIL.pixel := (0, 0, 0).

Record t := mk {
  quad_im : QuadImage.t;
  scale : Q;
  root : nat;
  model_error : Q;
  heap : list (Q * nat);
  objs : list Quadrant.t
}.

Definition set_heap (m : t) (heap : list (Q * nat)) (model_error : Q) : t :=
  mk (quad_im m) (scale m) (root m) model_error heap (objs m).

Definition set_objs (m : t) (objs : list Quadrant.t) : t :=
  mk (quad_im m) (scale m) (root m) (model_error m) (heap m) objs.

(** [x < y] on the heap's [(score, quad)] tuples: the first components
    that differ decide, and two [Quadrant]s are compared by address. *)
Definition tuple_lt (x y : Q * nat) : bool :=
  if negb (Qeq_bool (fst x) (fst y)) then Qlt_bool (fst x) (fst y)
  else if negb (addr (snd x) =? addr (snd y)) then addr (snd x) <? addr (snd y)
  else false.

(** [a ** .25]: a negative number cannot be raised to a fractional
    power ([ValueError]). *)
Definition float_pow_quarter (a : Z) : option Q :=
  if a <? 0 then None else Some (pow_quarter a).

Definition push (m : t) (quad : nat) : option t :=
  q ← objs m !! quad;
  p ← float_pow_quarter (Quadrant.area q);
  let score := (- Quadrant.error q * p)%Q in
  heap ← heapq.heappush tuple_lt (heap m) (score, quad);
  Some (set_heap m heap
          (model_error m + Quadrant.error q * inject_Z (Quadrant.area q))%Q).

Definition pop (m : t) : option (nat * t) :=
  '(item, heap) ← heapq.heappop tuple_lt (heap m);
  let quad := snd item in
  q ← objs m !! quad;
  Some (quad,
        set_heap m heap
          (model_error m - Quadrant.error q * inject_Z (Quadrant.area q))%Q).

(** [for child in children: self.push(child)]. *)
Definition push_all (m : t) (children : list nat) : option t :=
  foldl (fun m child => m ← m; push m child) (Some m) children.

Definition split (m : t) : option t :=
  '(quad, m) ← pop m;
  '(children, objs) ← Quadrant.split (QuadImage.im (quad_im m)) (objs m) quad;
  push_all (set_objs m objs) children.

(** [QuadModel(image_path, scale)], given the decoded image. *)
Definition init (image : PIL.Image) (scale : Q) : option t :=
  let quad_im := QuadImage.init image in
  root ←
    Quadrant.init (QuadImage.im quad_im)
      (0, 0, QuadImage.width quad_im, QuadImage.height quad_im) 0;
  let model_error := (Quadrant.error root * inject_Z (Quadrant.area root))%Q in
  push (mk quad_im scale 0 model_error [] [root]) 0.

(** [None] is a [ZeroDivisionError]. *)
Definition compute_average_model_error (m : t) : option Q :=
  let n := QuadImage.width (quad_im m) * QuadImage.height (quad_im m) in
  if n =? 0 then None else Some (model_error m / inject_Z n)%Q.

(** [render]: the canvas it saves, and the model it leaves. *)
Definition render (fuel : nat) (m : t) : option (PIL.Canvas * t) :=
  let '(dx, dy) := (QUAD_PADDING, QUAD_PADDING) in
  let m_ := scale m in
  let m_w := py_int (inject_Z (QuadImage.width (quad_im m)) * m_) in
  let m_h := py_int (inject_Z (QuadImage.height (quad_im m)) * m_) in
  let background := ((0, 0, m_w, m_h), PADDING_FILL) in
  leaf_nodes ← Quadrant.get_leaf_nodes fuel (objs m) (root m);
  quads ← mapM (fun quad => objs m !! quad) leaf_nodes;
  let draw := (fun quad =>
    let '(l, t, r, b) := Quadrant.coords quad in
    ((py_int (inject_Z l * m_ + inject_Z dx),
      py_int (inject_Z t * m_ + inject_Z dy),
      py_int (inject_Z r * m_ - inject_Z dx),
      py_int (inject_Z b * m_ - inject_Z dy)),
     Quadrant.color quad)) in
  Some (PIL.mkCanvas (m_w + dx, m_h + dy) (background :: (draw <$> quads)), m).

(** [k] calls of [split], as [recurse] makes them. *)
Fixpoint steps (k : nat) (m : t) : option t :=
  match k with
  | O => Some m
  | S k => m ← split m; steps k m
  end.

(** [self.fileprefix], as [__init__] makes it of [image_path]; [None]
    is an [IndexError]. *)
Definition fileprefix (image_path : String.string) : option String.string :=
  fileprefix ← str.rsplit image_path "."%char !! 0%nat;
  if str.contains "/"%char fileprefix
  then str.rsplit fileprefix "/"%char !! 1%nat
  else Some fileprefix.

(** [prev_error == None or prev_error - error > self.FRAME_THRESHOLD]. *)
Definition frame_due (prev_error : option Q) (error : Q) : bool :=
  match prev_error with
  | None => true
  | Some prev_error => Qlt_bool (inject_Z FRAME_THRESHOLD) (prev_error - error)
  end.

Definition frame_path (tempdir : String.string) (i : Z) (fileprefix : String.string)
  : String.string :=
  String.concat ""%string
    [tempdir; "/"%string; String.append (str.format_06d i) "_"%string;
     fileprefix; ".png"%string].

(** One turn of the loop of [recurse] on the model, the files saved so
    far and [prev_error]. *)
Definition recurse_body (fuel : nat) (fileprefix : String.string)
    (tempdir : option String.string)
    (st : option (t * list (String.string * PIL.Canvas) * option Q)) (i : Z)
  : option (t * list (String.string * PIL.Canvas) * option Q) :=
  '(m, saved, prev_error) ← st;
  error ← compute_average_model_error m;
  '(m, saved, prev_error) ←
    (if frame_due prev_error error then
       '(m, saved) ←
         (if str.truthy tempdir then
            let frame_path := frame_path (default ""%string tempdir) i fileprefix in
            '(canvas, m) ← render fuel m;
            Some (m, saved ++ [(frame_path, canvas)])
          else Some (m, saved));
       Some (m, saved, Some error)
     else Some (m, saved, prev_error));
  m ← split m;
  Some (m, saved, prev_error).

(** [recurse(iterations, tempdir)]: the files [render] has saved, in
    order, each with its path, and the model it leaves. *)
Definition recurse (fuel : nat) (m : t) (fileprefix : String.string)
    (iterations : Z) (tempdir : option String.string)
  : option (list (String.string * PIL.Canvas) * t) :=
  '(m, saved, _) ←
    foldl (recurse_body fuel fileprefix tempdir) (Some (m, [], None))
          (py_range 0 iterations);
  '(canvas, m) ← render fuel m;
  Some (saved ++ [(String.append fileprefix "_output.png"%string, canvas)], m).

End QuadModel.
End QuadModel.

(** * Specification *)

(** ** Channel statistics *)

Definition Qsum (l : list Q) : Q := foldr Qplus 0%Q l.

(** The statistics as section 4.1 of the specification words them, over
    the rationals: [mean = sum (i * count_i) / total] and
    [mse = sum ((mean - i)^2 * count_i) / total].  They are compared
    with [Quadrant.compute_avg_color_mse], which is the code's. *)
Definition spec_weighted_sum (hist : list Z) : Q :=
  Qsum ((fun '(i, c) => inject_Z i * inject_Z c)%Q <$> enumerate hist).

Definition spec_squared_deviation (mean : Q) (hist : list Z) : Q :=
  Qsum ((fun '(i, c) => (mean - inject_Z i) ^ 2 * inject_Z c)%Q <$> enumerate hist).

Definition spec_channel_statistics (hist : list Z) : Q * Q :=
  let total := inject_Z (py_sum hist) in
  let mean := (spec_weighted_sum hist / total)%Q in
  (mean, (spec_squared_deviation mean hist / total)%Q).

(** ** Rectangles *)

(** The pixel [p] lies in a half-open rectangle. *)
Definition in_box (p : Z * Z) (c : PIL.box) : Prop :=
  let '(l, t, r, b) := c in
  (l <= fst p /\ fst p < r) /\ (t <= snd p /\ snd p < b).

#[global] Instance in_box_dec p c : Decision (in_box p c).
Proof. destruct c as [[[l t] r] b]. unfold in_box. apply _. Defined.

(** A rectangle of non-negative width and height. *)
Definition box_ok (c : PIL.box) : Prop :=
  let '(l, t, r, b) := c in l <= r /\ t <= b.

(** How many rectangles of a list hold the pixel [p]. *)
Definition covering (p : Z * Z) (boxes : list PIL.box) : nat :=
  length (filter (in_box p) boxes).

(** What the constructor guarantees of a fresh quadrant. *)
Definition fresh_quadrant (im : PIL.Image) (d : Z) (c : PIL.box) (q : Quadrant.t) : Prop :=
  Quadrant.init im c d = Some q /\
  Quadrant.coords q = c /\ Quadrant.depth q = d /\
  Quadrant.area q = Quadrant.compute_area c /\ Quadrant.children q = [].

(** ** Heaps *)

(** What [heapq] asks of [<]: a strict weak order. *)
Class StrictWeakOrder {A : Type} (cmp_lt : A -> A -> bool) : Prop := {
  cmp_lt_irrefl x : cmp_lt x x = false;
  cmp_lt_trans x y z : cmp_lt x y = true -> cmp_lt y z = true -> cmp_lt x z = true;
  cmp_ge_trans x y z : cmp_lt y x = false -> cmp_lt z y = false -> cmp_lt z x = false
}.

(** The parent of the index [i] of a heap. *)
Definition parent (i : nat) : nat := ((i - 1) / 2)%nat.

Section heap_spec.
Context {A : Type} (cmp_lt : A -> A -> bool).
Implicit Types (h : list A) (x y : A) (i j pos : nat).

(** [x <= y], that is [not (y < x)]. *)
Definition item_le (x y : A) : Prop := cmp_lt y x = false.

(** The item at [i] is not smaller than its parent's. *)
Definition ordered_at h i : Prop :=
  forall x y, h !! i = Some x -> h !! parent i = Some y -> item_le y x.

(** The heap invariant of [heapq]: [heap[k] <= heap[2*k+1]] and
    [heap[k] <= heap[2*k+2]]. *)
Definition is_heap h : Prop := forall i, (0 < i)%nat -> ordered_at h i.

(** The heap but for the item at [pos], which may be smaller than its
    parent's; its children's are not smaller than its parent's. *)
Definition sift_pre h pos : Prop :=
  (forall i, (0 < i)%nat -> i <> pos -> ordered_at h i) /\
  (forall c x y, (0 < pos)%nat -> (0 < c)%nat -> parent c = pos ->
     h !! c = Some x -> h !! parent pos = Some y -> item_le y x).

(** The invariant of the loop of [_siftup]: the heap but for the item at
    [pos], which may be bigger than its children's. *)
Definition siftup_inv h pos : Prop :=
  (forall i, (0 < i)%nat -> parent i <> pos -> ordered_at h i) /\
  (forall c x y, (0 < pos)%nat -> (0 < c)%nat -> parent c = pos ->
     h !! c = Some x -> h !! parent pos = Some y -> item_le y x).
End heap_spec.

(** ** The scheduler *)

(** [error * area], the share of a quadrant in the model error. *)
Definition weighted_error (q : Quadrant.t) : Q :=
  (Quadrant.error q * inject_Z (Quadrant.area q))%Q.

Definition error_at (objs : list Quadrant.t) (i : nat) : Q :=
  from_option weighted_error 0%Q (objs !! i).

(** The sum of [error * area] over the quadrants of the frontier. *)
Definition frontier_error (objs : list Quadrant.t) (heap : list (Q * nat)) : Q :=
  Qsum (error_at objs <$> heap.*2).

(** A quadrant of the store: a proper rectangle, its area, and no
    children or the four of [split]. *)
Definition node_ok (objs : list Quadrant.t) (i : nat) (q : Quadrant.t) : Prop :=
  box_ok (Quadrant.coords q) /\
  Quadrant.area q = Quadrant.compute_area (Quadrant.coords q) /\
  (Quadrant.children q = [] \/
   exists n, Quadrant.children q = seq n 4 /\ (i < n)%nat /\
     Forall2 (fun k c => exists qk, objs !! k = Some qk /\ Quadrant.coords qk = c)
             (seq n 4) (Quadrant.split_coords (Quadrant.coords q))).

Definition tree_ok (objs : list Quadrant.t) : Prop :=
  forall i q, objs !! i = Some q -> node_ok objs i q.

(** The pre-order traversal of the quadrants reachable from [self]. *)
Fixpoint preorder (fuel : nat) (objs : list Quadrant.t) (self : nat)
  : option (list nat) :=
  match fuel with
  | O => None
  | S fuel =>
      q ← objs !! self;
      rest ← mapM (preorder fuel objs) (Quadrant.children q);
      Some (self :: concat rest)
  end.

(** A quadrant and, where it is [j], the new children after it: what
    [split] on [j] does to the traversal. *)
Definition graft (j : nat) (kids : list nat) (x : nat) : list nat :=
  if decide (x = j) then j :: kids else [x].

Section scheduler_spec.
Variable pow_quarter : Z -> Q.
Variable addr : nat -> Z.

(** The score [push] computes, and the priority it stands for. *)
Definition score (q : Quadrant.t) : Q :=
  (- Quadrant.error q * pow_quarter (Quadrant.area q))%Q.
Definition priority (q : Quadrant.t) : Q :=
  (Quadrant.error q * pow_quarter (Quadrant.area q))%Q.

(** A heap entry: the score of a quadrant without children. *)
Definition entry_ok (objs : list Quadrant.t) (e : Q * nat) : Prop :=
  exists q, objs !! snd e = Some q /\ Quadrant.children q = [] /\ fst e = score q.

(** The invariant of the scheduler.  The model error is the frontier's
    plus the root's, which [__init__] counts before it pushes the root. *)
Record Inv (m : QuadModel.t) : Prop := {
  inv_root : QuadModel.root m = 0%nat;
  inv_tree : tree_ok (QuadModel.objs m);
  inv_is_heap : is_heap (QuadModel.tuple_lt addr) (QuadModel.heap m);
  inv_nodup : NoDup (QuadModel.heap m).*2;
  inv_entries : Forall (entry_ok (QuadModel.objs m)) (QuadModel.heap m);
  inv_error :
    (QuadModel.model_error m ==
     frontier_error (QuadModel.objs m) (QuadModel.heap m)
     + error_at (QuadModel.objs m) 0)%Q;
  inv_root_box :
    exists rootq, QuadModel.objs m !! 0%nat = Some rootq /\
      Quadrant.coords rootq =
        (0, 0, QuadImage.width (QuadModel.quad_im m),
               QuadImage.height (QuadModel.quad_im m));
  inv_nodes :
    exists nodes,
      preorder (length (QuadModel.objs m)) (QuadModel.objs m) 0 = Some nodes /\
      nodes ≡ₚ seq 0 (length (QuadModel.objs m))
}.

(** The frontier as [push] builds it: a heap of the scores of stored
    quadrants. *)
Definition frontier_ok (m : QuadModel.t) : Prop :=
  is_heap (QuadModel.tuple_lt addr) (QuadModel.heap m) /\
  forall s i, (s, i) ∈ QuadModel.heap m ->
    exists q, QuadModel.objs m !! i = Some q /\ s = score q.
End scheduler_spec.

(** ** The leaves of the tree *)

(** The quadrant at [i] has no children. *)
Definition childless (objs : list Quadrant.t) (i : nat) : Prop :=
  Quadrant.children <$> objs !! i = Some [].

#[global] Instance childless_dec objs i : Decision (childless objs i).
Proof. unfold childless. apply _. Defined.

(** The rectangles of a list of quadrants. *)
Definition boxes_of (objs : list Quadrant.t) (ls : list nat) : list PIL.box :=
  omap (fun i => Quadrant.coords <$> objs !! i) ls.

(** What the traversals from the quadrant [i], of rectangle [c], give. *)
Definition tiles (objs : list Quadrant.t) (fuel : nat) (i : nat) (c : PIL.box) : Prop :=
  exists ls nodes,
    Quadrant.get_leaf_nodes fuel objs i = Some ls /\
    preorder fuel objs i = Some nodes /\
    ls = filter (childless objs) nodes /\
    length (boxes_of objs ls) = length ls /\
    forall p, covering p (boxes_of objs ls) = if decide (in_box p c) then 1%nat else 0%nat.

(** ** Rendering *)

(** The rectangle [render] draws for a quadrant: its corners scaled, moved
    inwards by the padding and truncated. *)
Definition drawn_box (scale : Q) (c : PIL.box) : PIL.box :=
  let '(l, t, r, b) := c in
  (py_int (inject_Z l * scale + 1), py_int (inject_Z t * scale + 1),
   py_int (inject_Z r * scale - 1), py_int (inject_Z b * scale - 1)).

(** What a quadrant shows: rectangle, color, error, children. *)
Definition view (q : Quadrant.t) : PIL.box * (Z * Z * Z) * Q * list nat :=
  (Quadrant.coords q, Quadrant.color q, Qred (Quadrant.error q), Quadrant.children q).

(** ** Histograms *)

(** The counts of one band of a histogram. *)
Definition band_hist (c : nat) (px : list PIL.pixel) : list Z :=
  PIL.count c px <$> py_range 0 256.

(** ** The store *)

(** A rectangle within an image of [W] by [H] pixels. *)
Definition inside (W H : Z) (c : PIL.box) : Prop :=
  let '(l, t, r, b) := c in
  (0 <= l /\ l <= r /\ r <= W) /\ (0 <= t /\ t <= b /\ b <= H).

(** A quadrant as the constructor makes it of its rectangle and depth,
    but for the children [split] has set since. *)
Definition constructed (im : PIL.Image) (q : Quadrant.t) : Prop :=
  exists q0, Quadrant.init im (Quadrant.coords q) (Quadrant.depth q) = Some q0 /\
    q = Quadrant.set_children q0 (Quadrant.children q).

(** The store of a scheduler: the heap holds the quadrants without
    children, and every quadrant is the constructor's, on a rectangle
    within the image. *)
Record Inv_store (m : QuadModel.t) : Prop := {
  st_frontier :
    forall i, i ∈ (QuadModel.heap m).*2 <-> childless (QuadModel.objs m) i;
  st_constructed :
    Forall (constructed (QuadImage.im (QuadModel.quad_im m))) (QuadModel.objs m);
  st_inside :
    Forall (fun q => inside (QuadImage.width (QuadModel.quad_im m))
                            (QuadImage.height (QuadModel.quad_im m))
                            (Quadrant.coords q)) (QuadModel.objs m)
}.

(** The area of the quadrant at [i]. *)
Definition area_at (objs : list Quadrant.t) (i : nat) : Z :=
  from_option Quadrant.area 0 (objs !! i).

(** ** The frames of [recurse] *)

(** The average error [recurse] computes [k] steps after [m]. *)
Definition error_after (pow_quarter : Z -> Q) (addr : nat -> Z)
    (m : QuadModel.t) (k : nat) : option Q :=
  m' ← QuadModel.steps pow_quarter addr k m;
  QuadModel.compute_average_model_error m'.

(** The file [f] is the frame of iteration [j]: the rendering of the
    state [j - i] steps after [m], the state of iteration [i], under the
    name of [j]. *)
Definition frame_of (pow_quarter : Z -> Q) (addr : nat -> Z) (fuel : nat)
    (m : QuadModel.t) (dir fileprefix : String.string) (i j : nat)
    (f : String.string * PIL.Canvas) : Prop :=
  exists mj canvas,
    QuadModel.steps pow_quarter addr (j - i) m = Some mj /\
    QuadModel.render fuel mj = Some (canvas, mj) /\
    f = (QuadModel.frame_path dir (Z.of_nat j) fileprefix, canvas).

(** The iterations that write a frame, given the average errors of the
    iterations from [i] on and the error of the frame before them. *)
Fixpoint frame_plan (prev : option Q) (i : nat) (errs : list Q) : list nat :=
  match errs with
  | [] => []
  | e :: errs =>
      if QuadModel.frame_due prev e
      then i :: frame_plan (Some e) (S i) errs
      else frame_plan prev (S i) errs
  end.

(** The last frame before iteration [k]. *)
Definition frame_before (plan : list nat) (k : nat) : option nat :=
  list.last (filter (fun j => (j < k)%nat) plan).

(** ** Examples *)

(** The 8x8 image of the scenario: the left half red, the right half
    blue. *)
Definition red_blue : PIL.Image :=
  PIL.mkImage (8, 8)%nat (fun x y => if x <? 4 then (255, 0, 0) else (0, 0, 255)).

Definition black : PIL.Image := PIL.mkImage (2, 2)%nat (fun _ _ => (0, 0, 0)).

(** A stand-in for [a ** .25] where an example has to run: the integer
    fourth root. *)
Definition pow_quarter_floor (a : Z) : Q := inject_Z (Z.sqrt (Z.sqrt a)).

(** Objects laid out in allocation order. *)
Definition addr_of_index (i : nat) : Z := Z.of_nat i.

(** The fresh scheduler of the red and blue image. *)
Definition fresh_red_blue : QuadModel.t :=
  default (QuadModel.mk (QuadImage.init red_blue) 1 0 0 [] [])
          (QuadModel.init pow_quarter_floor addr_of_index red_blue 1).

(** A 7x5 quadrant, as the constructor makes it. *)
Definition odd_quadrant : Quadrant.t :=
  default (Quadrant.mk (0, 0, 0, 0) 0 [] 0 (0, 0, 0) 0 true [])
          (Quadrant.init red_blue (0, 0, 7, 5) 0).

(** A quadrant one pixel wide, as the constructor makes it. *)
Definition thin_quadrant : Quadrant.t :=
  default (Quadrant.mk (0, 0, 0, 0) 0 [] 0 (0, 0, 0) 0 true [])
          (Quadrant.init red_blue (0, 0, 1, 8) 0).

(** The scheduler of the red and blue image after one step. *)
Definition red_blue_after_a_step : QuadModel.t :=
  default fresh_red_blue
          (QuadModel.steps pow_quarter_floor addr_of_index 1 fresh_red_blue).

(** The fresh scheduler of the red and blue image with its root popped. *)
Definition red_blue_popped : QuadModel.t :=
  default fresh_red_blue (snd <$> QuadModel.pop addr_of_index fresh_red_blue).

(** The root of the red and blue image. *)
Definition red_blue_root : Quadrant.t :=
  default thin_quadrant (Quadrant.init red_blue (0, 0, 8, 8) 0).

(** An image without pixels: no column, five rows. *)
Definition empty_image : PIL.Image := PIL.mkImage (0, 5)%nat (fun _ _ => (0, 0, 0)).

(** ** Tactics *)

Ltac div_lia := zify; Z.div_mod_to_equations; lia.

#[local] Arguments Nat.div : simpl never.
#[local] Arguments Nat.mul : simpl never.

(** * Proofs *)

(** ** Channel statistics *)

Lemma Qsum_inject_Z (l : list Z) :
  (Qsum (inject_Z <$> l) == inject_Z (py_sum l))%Q.
Proof.
  induction l as [|x l IH]; simpl; [reflexivity|].
  rewrite IH, inject_Z_plus. reflexivity.
Qed.

Lemma Qfloor_div (a b : Z) :
  0 < b -> Qfloor (inject_Z a / inject_Z b) = a / b.
Proof.
  intros Hb. destruct b as [|b|b]; try lia.
  unfold Qdiv, Qinv, Qmult, Qfloor, inject_Z. simpl.
  rewrite Z.mul_1_r. reflexivity.
Qed.

Lemma spec_weighted_sum_inject (l : list (Z * Z)) :
  (Qsum ((fun '(i, c) => inject_Z i * inject_Z c)%Q <$> l)
   == inject_Z (py_sum ((fun '(i, c) => (i * c)%Z) <$> l)))%Q.
Proof.
  induction l as [|[i c] l IH]; simpl; [reflexivity|].
  rewrite IH, inject_Z_plus, inject_Z_mult. reflexivity.
Qed.

Lemma spec_squared_deviation_inject (avg : Z) (l : list (Z * Z)) :
  (Qsum ((fun '(i, c) => (inject_Z avg - inject_Z i) ^ 2 * inject_Z c)%Q <$> l)
   == inject_Z (py_sum ((fun '(i, c) => ((avg - i) ^ 2 * c)%Z) <$> l)))%Q.
Proof.
  induction l as [|[i c] l IH]; simpl; [reflexivity|].
  rewrite IH, inject_Z_plus, inject_Z_mult.
  apply Qplus_comp; [|reflexivity].
  apply Qmult_comp; [|reflexivity].
  replace ((avg - i) ^ 2) with ((avg - i) * (avg - i)) by ring.
  rewrite inject_Z_mult. unfold Zminus. rewrite inject_Z_plus, inject_Z_opp.
  ring.
Qed.

(** The guard of [compute_avg_color_mse] leaves no zero divisor. *)
Lemma compute_avg_color_mse_eq (hist : list Z) :
  let ttl := if py_sum hist =? 0 then 1 else py_sum hist in
  let avg := py_sum ((fun '(i, c) => i * c) <$> enumerate hist) / ttl in
  Quadrant.compute_avg_color_mse hist =
  Some (avg, py_sum ((fun '(i, c) => (avg - i) ^ 2 * c) <$> enumerate hist) / ttl).
Proof.
  unfold Quadrant.compute_avg_color_mse, py_floordiv.
  destruct (Z.eqb_spec (py_sum hist) 0) as [E|E]; simpl.
  - reflexivity.
  - destruct (Z.eqb_spec (py_sum hist) 0); [contradiction|]. reflexivity.
Qed.

(** C4, amended: the channel statistics are the floors of the real-valued
    quotients (Python 2 integer division), the deviations being taken
    from the floored mean. *)
Theorem compute_avg_color_mse_floor (hist : list Z) :
  0 < py_sum hist ->
  exists mean mse : Z,
    Quadrant.compute_avg_color_mse hist = Some (mean, mse) /\
    mean = Qfloor (spec_weighted_sum hist / inject_Z (py_sum hist)) /\
    mse = Qfloor (spec_squared_deviation (inject_Z mean) hist
                  / inject_Z (py_sum hist)).
Proof.
  intros Hpos. rewrite compute_avg_color_mse_eq.
  destruct (Z.eqb_spec (py_sum hist) 0) as [E|_]; [lia|].
  eexists _, _. split; [reflexivity|]. split.
  - unfold spec_weighted_sum.
    rewrite (Qfloor_comp _ _ (Qdiv_comp _ _ (spec_weighted_sum_inject _) _ _ (Qeq_refl _))).
    symmetry. apply Qfloor_div, Hpos.
  - unfold spec_squared_deviation.
    rewrite (Qfloor_comp _ _ (Qdiv_comp _ _ (spec_squared_deviation_inject _ _) _ _ (Qeq_refl _))).
    symmetry. apply Qfloor_div, Hpos.
Qed.

Lemma compute_avg_color_mse_floor_witness :
  0 < py_sum (1 :: 1 :: replicate 254 0) /\
  exists mean mse : Z,
    Quadrant.compute_avg_color_mse (1 :: 1 :: replicate 254 0) = Some (mean, mse) /\
    mean = Qfloor (spec_weighted_sum (1 :: 1 :: replicate 254 0)
                   / inject_Z (py_sum (1 :: 1 :: replicate 254 0))) /\
    mse = Qfloor (spec_squared_deviation (inject_Z mean) (1 :: 1 :: replicate 254 0)
                  / inject_Z (py_sum (1 :: 1 :: replicate 254 0))).
Proof.
  split; [vm_compute; reflexivity|].
  apply (compute_avg_color_mse_floor (1 :: 1 :: replicate 254 0)).
  vm_compute. reflexivity.
Defined.

(** C4, as stated, fails on a region of one pixel of value 0 and one of
    value 1: the code answers [(0, 0)], the real-valued statistics are
    [(1/2, 1/4)]. *)
Lemma channel_statistics_not_real_valued :
  let hist := 1 :: 1 :: replicate 254 0 in
  length hist = 256%nat /\ 0 < py_sum hist /\
  Quadrant.compute_avg_color_mse hist = Some (0, 0) /\
  (fst (spec_channel_statistics hist) == 1 # 2)%Q /\
  (snd (spec_channel_statistics hist) == 1 # 4)%Q /\
  ~ (exists mean mse : Z,
       Quadrant.compute_avg_color_mse hist = Some (mean, mse) /\
       (inject_Z mean == fst (spec_channel_statistics hist))%Q /\
       (inject_Z mse == snd (spec_channel_statistics hist))%Q).
Proof.
  cbv zeta. split; [reflexivity|]. split; [reflexivity|].
  split; [vm_compute; reflexivity|].
  split; [vm_compute; reflexivity|]. split; [vm_compute; reflexivity|].
  intros (mean & mse & Hc & Hm & _).
  vm_compute in Hc. injection Hc as <- <-.
  vm_compute in Hm. discriminate Hm.
Qed.

(** ** Rectangles *)

Lemma covering_app p bs1 bs2 :
  covering p (bs1 ++ bs2) = (covering p bs1 + covering p bs2)%nat.
Proof. unfold covering. rewrite list.filter_app, length_app. reflexivity. Qed.

Lemma covering_cons p c bs :
  covering p (c :: bs) =
  ((if decide (in_box p c) then 1 else 0) + covering p bs)%nat.
Proof. unfold covering. rewrite list.filter_cons. destruct (decide _); reflexivity. Qed.

Lemma midpoint_bounds (a b : Z) : a <= b -> a <= a + (b - a) / 2 <= b.
Proof. intros H. Z.div_mod_to_equations. lia. Qed.

Lemma split_coords_ok c :
  box_ok c -> Forall box_ok (Quadrant.split_coords c).
Proof.
  destruct c as [[[l t] r] b]. intros [Hh Hv].
  pose proof (midpoint_bounds l r Hh). pose proof (midpoint_bounds t b Hv).
  unfold Quadrant.split_coords, box_ok. repeat constructor; lia.
Qed.

Lemma split_coords_covering p c :
  box_ok c ->
  covering p (Quadrant.split_coords c) = if decide (in_box p c) then 1%nat else 0%nat.
Proof.
  destruct c as [[[l t] r] b]. intros [Hh Hv]. destruct p as [x y].
  pose proof (midpoint_bounds l r Hh). pose proof (midpoint_bounds t b Hv).
  unfold Quadrant.split_coords. cbv zeta.
  set (h_split := l + (r - l) / 2) in *. set (v_split := t + (b - t) / 2) in *.
  rewrite !covering_cons. unfold covering, in_box. simpl.
  repeat destruct (decide _); simpl in *; lia.
Qed.

(** ** The constructor of [Quadrant] *)

Lemma compute_color_eq (h : list Z) :
  exists color error, Quadrant.compute_color h = Some (color, error).
Proof.
  unfold Quadrant.compute_color. rewrite !compute_avg_color_mse_eq. simpl.
  eexists _, _. reflexivity.
Qed.

Lemma init_eq im c d :
  exists color error,
    Quadrant.init im c d =
    Some (Quadrant.mk c d (PIL.histogram (PIL.crop im c)) (Quadrant.compute_area c)
            color error (Quadrant.is_leaf c) []).
Proof.
  unfold Quadrant.init.
  destruct (compute_color_eq (PIL.histogram (PIL.crop im c))) as (color & error & ->).
  simpl. eexists _, _. reflexivity.
Qed.

Lemma compute_area_nonneg c : box_ok c -> 0 <= Quadrant.compute_area c.
Proof. destruct c as [[[l t] r] b]. intros [? ?]. simpl. nia. Qed.

(** ** Degenerate regions *)

Lemma crop_empty im l t r b : r = l \/ b = t -> PIL.crop im (l, t, r, b) = [].
Proof.
  intros [-> | ->]; unfold PIL.crop, py_range; rewrite Z.sub_diag; simpl.
  - induction (seqZ t (b - t)) as [|y ys IH]; [reflexivity|exact IH].
  - reflexivity.
Qed.

(** C9: the all-zero histogram has mean 0 and mean squared error 0, and a
    quadrant over a rectangle of zero width or zero height is constructed
    without an error. *)
Theorem empty_histogram_is_defined :
  Quadrant.compute_avg_color_mse (replicate 256 0) = Some (0, 0) /\
  forall im l t r b depth, r = l \/ b = t ->
    exists q, Quadrant.init im (l, t, r, b) depth = Some q /\
    Quadrant.color_hist q = replicate 768 0 /\
    Quadrant.color q = (0, 0, 0) /\
    (Quadrant.error q == 0)%Q /\
    Quadrant.area q = 0 /\
    Quadrant.children q = [].
Proof.
  split; [vm_compute; reflexivity|].
  intros im l t r b depth Hdeg. unfold Quadrant.init.
  rewrite (crop_empty im l t r b Hdeg).
  change (PIL.histogram []) with (replicate 768 0).
  change (Quadrant.compute_color (replicate 768 0)) with (Some ((0, 0, 0), (0 / 3)%Q)).
  simpl. eexists. split; [reflexivity|]. simpl. repeat split.
  destruct Hdeg as [-> | ->]; lia.
Qed.

Lemma empty_histogram_is_defined_witness :
  exists q, Quadrant.init black (1, 0, 1, 2) 1 = Some q /\
    Quadrant.color_hist q = replicate 768 0 /\
    Quadrant.color q = (0, 0, 0) /\
    (Quadrant.error q == 0)%Q /\
    Quadrant.area q = 0 /\
    Quadrant.children q = [].
Proof.
  apply (proj2 empty_histogram_is_defined black 1 0 1 2 1).
  left. reflexivity.
Defined.

(** ** [Quadrant.split] *)

Lemma init_fresh im c d : exists q, fresh_quadrant im d c q.
Proof.
  destruct (init_eq im c d) as (color & error & E).
  eexists. split; [exact E|]. simpl. auto.
Qed.

Lemma split_eq im objs self q :
  objs !! self = Some q ->
  exists t_l t_r b_l b_r,
    let n := length objs in
    let kids := [n; S n; S (S n); S (S (S n))] in
    Quadrant.split im objs self =
      Some (kids, <[self := Quadrant.set_children q kids]> (objs ++ [t_l; t_r; b_l; b_r])) /\
    Forall2 (fresh_quadrant im (Quadrant.depth q + 1))
      (Quadrant.split_coords (Quadrant.coords q)) [t_l; t_r; b_l; b_r].
Proof.
  intros Hq. unfold Quadrant.split. rewrite Hq. simpl.
  destruct (Quadrant.coords q) as [[[l t] r] b]. unfold Quadrant.split_coords.
  cbv zeta.
  set (h_split := l + (r - l) / 2). set (v_split := t + (b - t) / 2).
  set (d := Quadrant.depth q + 1).
  destruct (init_fresh im (l, t, h_split, v_split) d) as (t_l & Htl).
  destruct (init_fresh im (h_split, t, r, v_split) d) as (t_r & Htr).
  destruct (init_fresh im (l, v_split, h_split, b) d) as (b_l & Hbl).
  destruct (init_fresh im (h_split, v_split, r, b) d) as (b_r & Hbr).
  exists t_l, t_r, b_l, b_r. split.
  - simpl. rewrite (proj1 Htl), (proj1 Htr), (proj1 Hbl), (proj1 Hbr). simpl.
    reflexivity.
  - repeat (constructor; [assumption|]). constructor.
Qed.

(** C3: [split] cuts at the floor midpoints and makes four children, top
    left, top right, bottom left, bottom right; their half-open rectangles
    are pairwise disjoint, cover the parent's, and their areas add up to
    the parent's. *)
Theorem split_partitions_the_quadrant im objs self q l t r b :
  objs !! self = Some q ->
  Quadrant.coords q = (l, t, r, b) ->
  l <= r -> t <= b ->
  let h_split := l + (r - l) / 2 in
  let v_split := t + (b - t) / 2 in
  let n := length objs in
  exists objs' t_l t_r b_l b_r,
    Quadrant.split im objs self = Some ([n; S n; S (S n); S (S (S n))], objs') /\
    Quadrant.children <$> objs' !! self = Some [n; S n; S (S n); S (S (S n))] /\
    objs' !! n = Some t_l /\ objs' !! S n = Some t_r /\
    objs' !! S (S n) = Some b_l /\ objs' !! S (S (S n)) = Some b_r /\
    length objs' = (n + 4)%nat /\
    let boxes := Quadrant.coords <$> [t_l; t_r; b_l; b_r] in
    boxes = [(l, t, h_split, v_split); (h_split, t, r, v_split);
             (l, v_split, h_split, b); (h_split, v_split, r, b)] /\
    (forall i j bi bj p, boxes !! i = Some bi -> boxes !! j = Some bj -> i <> j ->
       ~ (in_box p bi /\ in_box p bj)) /\
    (forall p, in_box p (l, t, r, b) <-> exists c, c ∈ boxes /\ in_box p c) /\
    Quadrant.area t_l + Quadrant.area t_r + Quadrant.area b_l + Quadrant.area b_r
      = (r - l) * (b - t).
Proof.
  intros Hq Hc Hh Hv h_split v_split n.
  destruct (split_eq im objs self q Hq) as (t_l & t_r & b_l & b_r & Hs & Hf).
  cbv zeta in Hs. rewrite Hc in Hf. unfold Quadrant.split_coords in Hf.
  fold h_split v_split in Hf.
  apply Forall2_cons_1 in Hf as [(_ & C1 & _ & A1 & _) Hf].
  apply Forall2_cons_1 in Hf as [(_ & C2 & _ & A2 & _) Hf].
  apply Forall2_cons_1 in Hf as [(_ & C3 & _ & A3 & _) Hf].
  apply Forall2_cons_1 in Hf as [(_ & C4 & _ & A4 & _) _].
  assert (Hlt : (self < length objs)%nat) by (eapply lookup_lt_Some; eauto).
  assert (Hnew : forall k x, ([t_l; t_r; b_l; b_r] : list Quadrant.t) !! k = Some x ->
            <[self := Quadrant.set_children q [n; S n; S (S n); S (S (S n))]]>
              (objs ++ [t_l; t_r; b_l; b_r]) !! (n + k)%nat = Some x).
  { intros k x Hk. rewrite list_lookup_insert_ne by (subst n; lia).
    subst n. rewrite lookup_app_r by lia.
    replace (length objs + k - length objs)%nat with k by lia. exact Hk. }
  eexists _, t_l, t_r, b_l, b_r. split; [exact Hs|].
  split.
  { rewrite list_lookup_insert_eq; [reflexivity|]. rewrite length_app. lia. }
  split; [rewrite <- (Nat.add_0_r n); apply Hnew; reflexivity|].
  split; [replace (S n) with (n + 1)%nat by lia; apply Hnew; reflexivity|].
  split; [replace (S (S n)) with (n + 2)%nat by lia; apply Hnew; reflexivity|].
  split; [replace (S (S (S n))) with (n + 3)%nat by lia; apply Hnew; reflexivity|].
  split; [rewrite length_insert, length_app; reflexivity|].
  cbv zeta. simpl. rewrite C1, C2, C3, C4.
  pose proof (midpoint_bounds l r Hh) as Bh.
  pose proof (midpoint_bounds t b Hv) as Bv.
  fold h_split in Bh. fold v_split in Bv.
  split; [reflexivity|]. split; [|split].
  - intros i j bi bj [x y] Hi Hj Hij [Pi Pj].
    destruct i as [|[|[|[|i]]]]; simpl in Hi; try discriminate Hi;
      injection Hi as <-;
      destruct j as [|[|[|[|j]]]]; simpl in Hj; try discriminate Hj;
      injection Hj as <-; try (now apply Hij);
      unfold in_box in Pi, Pj; simpl in Pi, Pj; lia.
  - intros [x y]. split.
    + intros Hp. unfold in_box in Hp. simpl in Hp.
      destruct (Z_lt_le_dec x h_split), (Z_lt_le_dec y v_split).
      * exists (l, t, h_split, v_split). split; [repeat constructor|]. unfold in_box; simpl; lia.
      * exists (l, v_split, h_split, b). split; [repeat constructor|]. unfold in_box; simpl; lia.
      * exists (h_split, t, r, v_split). split; [repeat constructor|]. unfold in_box; simpl; lia.
      * exists (h_split, v_split, r, b). split; [repeat constructor|]. unfold in_box; simpl; lia.
    + intros (c & Hin & Hp).
      repeat (apply elem_of_cons in Hin as [-> | Hin]);
        try (unfold in_box in *; simpl in *; lia).
      apply elem_of_nil in Hin. contradiction.
  - rewrite A1, A2, A3, A4. simpl. ring.
Qed.

(** ** heapq: the heap is kept, and nothing gets lost *)


Lemma list_pop_snoc {A} (l : list A) (x : A) : list_pop (l ++ [x]) = Some (x, l).
Proof. unfold list_pop. rewrite reverse_snoc, reverse_involutive. reflexivity. Qed.

Lemma list_pop_Some {A} (l l' : list A) (x : A) :
  list_pop l = Some (x, l') -> l = l' ++ [x].
Proof.
  unfold list_pop. destruct (reverse l) as [|y r] eqn:E; [discriminate|].
  intros [= -> <-]. rewrite <- (reverse_involutive l), E, reverse_cons. reflexivity.
Qed.

Lemma list_pop_nonempty {A} (l : list A) :
  l <> [] -> exists x l', l = l' ++ [x] /\ list_pop l = Some (x, l').
Proof.
  intros Hl. destruct (list_pop l) as [[x l']|] eqn:E.
  - exists x, l'. split; [apply list_pop_Some, E|reflexivity].
  - unfold list_pop in E. destruct (reverse l) eqn:Er; [|discriminate].
    apply (f_equal reverse) in Er. rewrite reverse_involutive in Er. contradiction.
Qed.

Section permutation.
Context {A : Type} (cmp_lt : A -> A -> bool).
Implicit Types (h : list A) (x y : A) (i j pos : nat).

Lemma insert_head_perm h i x y :
  (i < length h)%nat -> x :: <[i := y]> h ≡ₚ y :: <[i := x]> h.
Proof.
  revert i. induction h as [|a h IH]; intros [|i] Hi; simpl in *; try lia.
  - apply perm_swap.
  - rewrite (perm_swap a x), (perm_swap a y). f_equiv. apply IH. lia.
Qed.

(** Moving [y] from [j] to [i] and putting [x] in its place, or putting
    [x] at [i]: the same items. *)
Lemma insert_swap_perm h i j x y :
  i <> j -> (i < length h)%nat -> h !! j = Some y ->
  <[j := x]> (<[i := y]> h) ≡ₚ <[i := x]> h.
Proof.
  revert i j. induction h as [|a h IH]; intros i j Hij Hi Hj; [simpl in Hi; lia|].
  destruct i as [|i], j as [|j]; simpl in *.
  - congruence.
  - rewrite <- (list_insert_id h j y Hj) at 2.
    symmetry. apply insert_head_perm. eapply lookup_lt_Some, Hj.
  - injection Hj as ->. apply insert_head_perm. lia.
  - f_equiv. apply IH; [congruence|lia|exact Hj].
Qed.

Lemma siftdown_loop_perm fuel : forall h pos x,
  (pos <= fuel)%nat -> (pos < length h)%nat ->
  exists h' pos',
    heapq._siftdown_loop cmp_lt fuel h 0 pos x = Some (h', pos') /\
    length h' = length h /\ (pos' < length h)%nat /\
    <[pos' := x]> h' ≡ₚ <[pos := x]> h.
Proof.
  induction fuel as [|fuel IH]; intros h pos x Hf Hp.
  - assert (pos = 0%nat) as -> by lia. simpl. eauto 10.
  - simpl. destruct (decide (0 < pos)%nat) as [H0|H0]; [|eauto 10].
    assert (Hpar : ((pos - 1) / 2 < pos)%nat) by div_lia.
    destruct (lookup_lt_is_Some_2 h ((pos - 1) / 2)%nat) as [p Hpv]; [lia|].
    rewrite Hpv. simpl. destruct (cmp_lt x p); [|eauto 10].
    destruct (IH (<[pos := p]> h) ((pos - 1) / 2)%nat x) as (h' & pos' & E & L & B & P).
    { lia. } { rewrite length_insert. lia. }
    exists h', pos'. rewrite length_insert in L, B.
    repeat split; try assumption.
    rewrite P. apply insert_swap_perm; [lia|lia|exact Hpv].
Qed.

Lemma siftdown_perm h pos x :
  h !! pos = Some x ->
  exists h', heapq._siftdown cmp_lt h 0 pos = Some h' /\ h' ≡ₚ h.
Proof.
  intros Hx. unfold heapq._siftdown. rewrite Hx. simpl.
  destruct (siftdown_loop_perm pos h pos x) as (h' & pos' & E & L & B & P).
  { lia. } { eapply lookup_lt_Some, Hx. }
  rewrite E. simpl. eexists. split; [reflexivity|].
  rewrite P, (list_insert_id h pos x Hx). reflexivity.
Qed.

Lemma siftup_loop_perm fuel : forall h pos x,
  (length h - pos <= fuel)%nat -> (pos < length h)%nat ->
  exists h' pos',
    heapq._siftup_loop cmp_lt fuel h (length h) pos (2 * pos + 1) = Some (h', pos') /\
    length h' = length h /\ (pos' < length h)%nat /\
    <[pos' := x]> h' ≡ₚ <[pos := x]> h.
Proof.
  induction fuel as [|fuel IH]; intros h pos x Hf Hp; [lia|].
  simpl. destruct (decide (2 * pos + 1 < length h)%nat) as [Hc|Hc].
  2:{ eauto 10. }
  assert (Hstep : forall c v, (pos < c)%nat -> (c < length h)%nat -> h !! c = Some v ->
    exists h' pos',
      heapq._siftup_loop cmp_lt fuel (<[pos := v]> h) (length h) c (2 * c + 1) = Some (h', pos') /\
      length h' = length h /\ (pos' < length h)%nat /\ <[pos' := x]> h' ≡ₚ <[pos := x]> h).
  { intros c v Hpc Hcl Hv.
    destruct (IH (<[pos := v]> h) c x) as (h' & pos' & E & L & B & P).
    { rewrite length_insert. lia. } { rewrite length_insert. lia. }
    rewrite length_insert in E, L, B. exists h', pos'.
    repeat split; try assumption.
    rewrite P. apply insert_swap_perm; [lia|lia|exact Hv]. }
  destruct (lookup_lt_is_Some_2 h (2 * pos + 1)%nat) as [l Hl]; [lia|].
  destruct (decide (2 * pos + 1 + 1 < length h)%nat) as [Hr|Hr].
  - destruct (lookup_lt_is_Some_2 h (2 * pos + 1 + 1)%nat) as [r Hrv]; [lia|].
    rewrite Hl, Hrv. simpl. destruct (cmp_lt l r); simpl.
    + rewrite Hl. simpl.
      apply (Hstep _ l); [lia|lia|exact Hl].
    + rewrite Hrv. simpl.
      apply (Hstep _ r); [lia|lia|exact Hrv].
  - simpl. rewrite Hl. simpl.
    apply (Hstep _ l); [lia|lia|exact Hl].
Qed.
End permutation.

Section heap_order.
Context {A : Type} (cmp_lt : A -> A -> bool) `{!StrictWeakOrder cmp_lt}.
Implicit Types (h : list A) (x y : A) (i j pos : nat).

Abbreviation item_le := (item_le cmp_lt).
Abbreviation ordered_at := (ordered_at cmp_lt).
Abbreviation is_heap := (is_heap cmp_lt).
Abbreviation sift_pre := (sift_pre cmp_lt).
Abbreviation siftup_inv := (siftup_inv cmp_lt).

Lemma parent_lt i : (0 < i)%nat -> (parent i < i)%nat.
Proof. unfold parent. div_lia. Qed.

Lemma parent_children i p :
  (0 < i)%nat -> parent i = p <-> i = (2 * p + 1)%nat \/ i = (2 * p + 1 + 1)%nat.
Proof. unfold parent. div_lia. Qed.

Lemma cmp_lt_asym x y : cmp_lt x y = true -> cmp_lt y x = false.
Proof.
  intros H. destruct (cmp_lt y x) eqn:E; [|reflexivity].
  rewrite <- (cmp_lt_irrefl x). symmetry. eapply cmp_lt_trans; eassumption.
Qed.

Lemma cmp_lt_le_trans x y z : cmp_lt x y = true -> item_le y z -> item_le x z.
Proof.
  unfold item_le. intros Hxy Hyz. destruct (cmp_lt z x) eqn:E; [|reflexivity].
  rewrite <- Hyz. symmetry. eapply cmp_lt_trans; eassumption.
Qed.

Lemma item_le_trans x y z : item_le x y -> item_le y z -> item_le x z.
Proof. unfold item_le. intros Hxy Hyz. eapply cmp_ge_trans; eassumption. Qed.

Lemma item_le_refl x : item_le x x.
Proof. apply cmp_lt_irrefl. Qed.

Lemma is_heap_nil : is_heap [].
Proof. intros i _ x y Hx. rewrite lookup_nil in Hx. discriminate. Qed.

Lemma is_heap_prefix h1 h2 : is_heap (h1 ++ h2) -> is_heap h1.
Proof.
  intros H i Hi x y Hx Hy. apply (H i Hi).
  - apply lookup_app_l_Some, Hx.
  - apply lookup_app_l_Some, Hy.
Qed.

(** The smallest item of a heap is at index 0. *)
Lemma heap_root_minimal h r :
  is_heap h -> h !! 0%nat = Some r -> forall i x, h !! i = Some x -> item_le r x.
Proof.
  intros Hh Hr i. induction (lt_wf i) as [i _ IH]. intros x Hx.
  destruct (decide (i = 0%nat)) as [->|Hi].
  - rewrite Hr in Hx. injection Hx as <-. apply item_le_refl.
  - assert (Hp : (parent i < i)%nat) by (unfold parent; div_lia).
    destruct (lookup_lt_is_Some_2 h (parent i)) as [y Hy].
    { apply lookup_lt_Some in Hx. lia. }
    eapply item_le_trans; [apply (IH _ Hp _ Hy)|].
    apply (Hh i); [lia|exact Hx|exact Hy].
Qed.

Lemma siftdown_loop_heap fuel : forall h pos x h' pos',
  (pos < length h)%nat ->
  sift_pre (<[pos := x]> h) pos ->
  heapq._siftdown_loop cmp_lt fuel h 0 pos x = Some (h', pos') ->
  is_heap (<[pos' := x]> h').
Proof.
  induction fuel as [|fuel IH]; intros h pos x h' pos' Hp [Hord Hgr] E.
  - simpl in E. destruct (decide (0 < pos)%nat); [discriminate|].
    injection E as <- <-. intros i Hi. apply Hord; lia.
  - simpl in E. destruct (decide (0 < pos)%nat) as [H0|H0].
    2:{ injection E as <- <-. intros i Hi. apply Hord; lia. }
    fold (parent pos) in E.
    assert (Hpar : (parent pos < pos)%nat) by (unfold parent; div_lia).
    destruct (h !! parent pos) as [p|] eqn:Hpv; [|discriminate]. simpl in E.
    assert (Hgp : <[pos := x]> h !! parent pos = Some p).
    { rewrite list_lookup_insert_ne by lia. exact Hpv. }
    assert (Hgx : <[pos := x]> h !! pos = Some x).
    { apply list_lookup_insert_eq. lia. }
    destruct (cmp_lt x p) eqn:Hlt.
    2:{ injection E as <- <-. intros i Hi.
        destruct (decide (i = pos)) as [->|Hne]; [|apply Hord; assumption].
        intros a b Ha Hb. rewrite Hgx in Ha. rewrite Hgp in Hb.
        injection Ha as <-. injection Hb as <-. exact Hlt. }
    apply IH in E; [exact E|rewrite length_insert; lia|]. clear E IH.
    set (g := <[pos := x]> h) in *.
    set (g' := <[parent pos := x]> (<[pos := p]> h)).
    assert (Lp : g' !! parent pos = Some x).
    { apply list_lookup_insert_eq. rewrite length_insert. lia. }
    assert (Lx : g' !! pos = Some p).
    { unfold g'. rewrite list_lookup_insert_ne by lia.
      apply list_lookup_insert_eq. lia. }
    assert (Lo : forall k, k <> pos -> k <> parent pos -> g' !! k = g !! k).
    { intros k H1 H2. unfold g', g.
      rewrite !list_lookup_insert_ne by lia. reflexivity. }
    split.
    + intros i Hi Hne a b Ha Hb.
      destruct (decide (i = pos)) as [->|Hip].
      * rewrite Lx in Ha. rewrite Lp in Hb.
        injection Ha as <-. injection Hb as <-. apply cmp_lt_asym, Hlt.
      * rewrite Lo in Ha by assumption.
        destruct (decide (parent i = parent pos)) as [Epp|Npp].
        { rewrite Epp, Lp in Hb. injection Hb as <-.
          eapply cmp_lt_le_trans; [exact Hlt|].
          apply (Hord i Hi Hip a p Ha). rewrite Epp. exact Hgp. }
        destruct (decide (parent i = pos)) as [Epo|Npo].
        { rewrite Epo, Lx in Hb. injection Hb as <-.
          apply (Hgr i a p H0 Hi Epo Ha Hgp). }
        rewrite Lo in Hb by assumption.
        apply (Hord i Hi Hip a b Ha Hb).
    + intros c a b Hpp Hc Hpc Ha Hb.
      assert (Hgpp : (parent (parent pos) < parent pos)%nat)
        by (apply parent_lt, Hpp).
      rewrite Lo in Hb by lia.
      assert (Hpb : item_le b p).
      { apply (Hord (parent pos) Hpp ltac:(lia) p b Hgp Hb). }
      destruct (decide (c = pos)) as [->|Hcp].
      * rewrite Lx in Ha. injection Ha as <-. exact Hpb.
      * rewrite Lo in Ha by (try assumption; unfold parent in *; div_lia).
        eapply item_le_trans; [exact Hpb|].
        apply (Hord c Hc Hcp a p Ha). rewrite Hpc. exact Hgp.
Qed.

Lemma siftdown_heap h pos h' :
  sift_pre h pos ->
  heapq._siftdown cmp_lt h 0 pos = Some h' ->
  is_heap h'.
Proof.
  intros Hpre E. unfold heapq._siftdown in E.
  destruct (h !! pos) as [x|] eqn:Hx; [|discriminate]. simpl in E.
  destruct (heapq._siftdown_loop cmp_lt pos h 0 pos x) as [[h1 pos1]|] eqn:El;
    [|discriminate].
  simpl in E. injection E as <-.
  eapply siftdown_loop_heap; [| |exact El].
  - eapply lookup_lt_Some, Hx.
  - rewrite (list_insert_id h pos x Hx). exact Hpre.
Qed.

Lemma siftup_inv_step h pos c v :
  siftup_inv h pos ->
  (pos < length h)%nat -> parent c = pos -> (0 < c)%nat ->
  h !! c = Some v ->
  (forall s w, (0 < s)%nat -> parent s = pos -> h !! s = Some w -> item_le v w) ->
  siftup_inv (<[pos := v]> h) c.
Proof.
  intros [Hord Hgr] Hp Hpc Hc Hv Hmin.
  assert (Hcp : (pos < c)%nat) by (unfold parent in *; div_lia).
  assert (Lx : <[pos := v]> h !! pos = Some v) by (apply list_lookup_insert_eq; lia).
  assert (Lo : forall k, k <> pos -> <[pos := v]> h !! k = h !! k).
  { intros k Hk. apply list_lookup_insert_ne. lia. }
  split.
  - intros i Hi Hne a b Ha Hb.
    destruct (decide (i = pos)) as [->|Hip].
    + rewrite Lx in Ha. injection Ha as <-.
      rewrite Lo in Hb by (unfold parent; div_lia).
      apply (Hgr c v b Hi Hc Hpc Hv Hb).
    + rewrite Lo in Ha by assumption.
      destruct (decide (parent i = pos)) as [Epo|Npo].
      * rewrite Epo, Lx in Hb. injection Hb as <-.
        apply (Hmin i a Hi Epo Ha).
      * rewrite Lo in Hb by assumption. apply (Hord i Hi Npo a b Ha Hb).
  - intros d a b _ Hd Hpd Ha Hb.
    rewrite Hpc, Lx in Hb. injection Hb as <-.
    rewrite Lo in Ha by (unfold parent in *; div_lia).
    apply (Hord d Hd ltac:(lia) a v Ha). rewrite Hpd. exact Hv.
Qed.

Lemma siftup_loop_inv fuel : forall h pos h' pos',
  (pos < length h)%nat ->
  siftup_inv h pos ->
  heapq._siftup_loop cmp_lt fuel h (length h) pos (2 * pos + 1) = Some (h', pos') ->
  siftup_inv h' pos' /\ (length h <= 2 * pos' + 1)%nat /\ length h' = length h.
Proof.
  induction fuel as [|fuel IH]; intros h pos h' pos' Hp Hinv E.
  - simpl in E. destruct (decide _); [discriminate|].
    injection E as <- <-. split; [exact Hinv|]. split; [lia|reflexivity].
  - simpl in E. destruct (decide (2 * pos + 1 < length h)%nat) as [Hc|Hc].
    2:{ injection E as <- <-. split; [exact Hinv|]. split; [lia|reflexivity]. }
    assert (Hstep : forall c v, parent c = pos -> (0 < c)%nat -> h !! c = Some v ->
      (forall s w, (0 < s)%nat -> parent s = pos -> h !! s = Some w -> item_le v w) ->
      heapq._siftup_loop cmp_lt fuel (<[pos := v]> h) (length h) c (2 * c + 1)
        = Some (h', pos') ->
      siftup_inv h' pos' /\ (length h <= 2 * pos' + 1)%nat /\ length h' = length h).
    { intros c v Hpc Hc0 Hv Hmin E'.
      rewrite <- (length_insert h pos v) in E'. apply IH in E'.
      - rewrite !length_insert in E'. exact E'.
      - rewrite length_insert. eapply lookup_lt_Some, Hv.
      - apply siftup_inv_step; assumption. }
    assert (Hkids : forall s, (0 < s)%nat -> parent s = pos ->
              s = (2 * pos + 1)%nat \/ s = (2 * pos + 1 + 1)%nat)
      by (intros s; unfold parent; div_lia).
    assert (Hl : parent (2 * pos + 1) = pos) by (unfold parent; div_lia).
    assert (Hr : parent (2 * pos + 1 + 1) = pos) by (unfold parent; div_lia).
    destruct (h !! (2 * pos + 1)%nat) as [l|] eqn:Hlv.
    2:{ apply lookup_ge_None_1 in Hlv. lia. }
    destruct (decide (2 * pos + 1 + 1 < length h)%nat) as [Hrl|Hrl].
    + destruct (h !! (2 * pos + 1 + 1)%nat) as [r|] eqn:Hrv; [|discriminate].
      simpl in E. destruct (cmp_lt l r) eqn:Hlt; simpl in E.
      * rewrite Hlv in E. simpl in E.
        apply (Hstep _ l Hl ltac:(lia) Hlv); [|exact E].
        intros s w Hs Hps Hw. destruct (Hkids s Hs Hps) as [-> | ->].
        -- rewrite Hlv in Hw. injection Hw as <-. apply item_le_refl.
        -- rewrite Hrv in Hw. injection Hw as <-. apply cmp_lt_asym, Hlt.
      * rewrite Hrv in E. simpl in E.
        apply (Hstep _ r Hr ltac:(lia) Hrv); [|exact E].
        intros s w Hs Hps Hw. destruct (Hkids s Hs Hps) as [-> | ->].
        -- rewrite Hlv in Hw. injection Hw as <-. exact Hlt.
        -- rewrite Hrv in Hw. injection Hw as <-. apply item_le_refl.
    + simpl in E. rewrite Hlv in E. simpl in E.
      apply (Hstep _ l Hl ltac:(lia) Hlv); [|exact E].
      intros s w Hs Hps Hw. destruct (Hkids s Hs Hps) as [-> | ->].
      -- rewrite Hlv in Hw. injection Hw as <-. apply item_le_refl.
      -- apply lookup_lt_Some in Hw. lia.
Qed.
End heap_order.

Section heapq_spec.
Context {A : Type} (cmp_lt : A -> A -> bool).
Implicit Types (h : list A) (x y : A).

(** [heappush] never fails and adds the item. *)
Lemma heappush_perm h x :
  exists h', heapq.heappush cmp_lt h x = Some h' /\ h' ≡ₚ x :: h.
Proof.
  unfold heapq.heappush.
  destruct (siftdown_perm cmp_lt (h ++ [x]) (length (h ++ [x]) - 1) x) as (h' & E & P).
  { rewrite length_app. simpl.
    replace (length h + 1 - 1)%nat with (length h + 0)%nat by lia.
    rewrite lookup_app_r by lia. replace (length h + 0 - length h)%nat with 0%nat by lia.
    reflexivity. }
  exists h'. split; [exact E|]. rewrite P. symmetry. apply Permutation_cons_append.
Qed.

Lemma siftup_perm h x :
  h !! 0%nat = Some x ->
  exists h', heapq._siftup cmp_lt h 0 = Some h' /\ h' ≡ₚ h.
Proof.
  intros Hx. unfold heapq._siftup. rewrite Hx. simpl.
  assert (Hlen : (0 < length h)%nat) by (eapply lookup_lt_Some, Hx).
  destruct (siftup_loop_perm cmp_lt (length h) h 0 x) as (h1 & pos1 & E & L & B & P);
    [lia|lia|].
  change (2 * 0 + 1)%nat with 1%nat in E. rewrite E. simpl.
  destruct (siftdown_perm cmp_lt (<[pos1 := x]> h1) pos1 x) as (h' & E' & P').
  { apply list_lookup_insert_eq. lia. }
  exists h'. split; [exact E'|].
  rewrite P', P, (list_insert_id h 0 x Hx). reflexivity.
Qed.

(** [heappop] fails on the empty heap only, and removes the item it
    returns, which is the one at index 0. *)
Lemma heappop_perm h :
  h <> [] ->
  exists x h', heapq.heappop cmp_lt h = Some (x, h') /\ h ≡ₚ x :: h' /\
               h !! 0%nat = Some x.
Proof.
  intros Hne. destruct (list_pop_nonempty h Hne) as (lastelt & h0 & -> & Ep).
  unfold heapq.heappop. rewrite Ep. simpl.
  destruct h0 as [|r h0].
  - exists lastelt, []. repeat split; reflexivity.
  - destruct (siftup_perm (<[0%nat := lastelt]> (r :: h0)) lastelt) as (h' & E & P);
      [reflexivity|].
    rewrite E. simpl. exists r, h'. split; [reflexivity|]. split; [|reflexivity].
    rewrite P. simpl. rewrite <- Permutation_cons_append. reflexivity.
Qed.

Lemma heappop_nil : heapq.heappop cmp_lt ([] : list A) = None.
Proof. reflexivity. Qed.

Context `{!StrictWeakOrder cmp_lt}.

Lemma heappush_heap h x h' :
  is_heap cmp_lt h -> heapq.heappush cmp_lt h x = Some h' -> is_heap cmp_lt h'.
Proof.
  intros Hh E. unfold heapq.heappush in E.
  eapply siftdown_heap; [exact _| |exact E].
  rewrite length_app. simpl. replace (length h + 1 - 1)%nat with (length h) by lia.
  split.
  - intros i Hi Hne a b Ha Hb.
    assert (Hil : (i < length h)%nat).
    { apply lookup_lt_Some in Ha. rewrite length_app in Ha. simpl in Ha. lia. }
    pose proof (parent_lt i Hi).
    rewrite lookup_app_l in Ha, Hb by lia. apply (Hh i Hi a b Ha Hb).
  - intros c a b H0 Hc Hpc Ha Hb.
    apply lookup_lt_Some in Ha. rewrite length_app in Ha. simpl in Ha.
    apply parent_children in Hpc; lia.
Qed.

Lemma siftup_heap h h' :
  (forall i, (0 < i)%nat -> parent i <> 0%nat -> ordered_at cmp_lt h i) ->
  heapq._siftup cmp_lt h 0 = Some h' -> is_heap cmp_lt h'.
Proof.
  intros Hh E. unfold heapq._siftup in E.
  destruct (h !! 0%nat) as [x|] eqn:Hx; simpl in E; [|discriminate].
  assert (Hlen : (0 < length h)%nat) by (eapply lookup_lt_Some, Hx).
  change (2 * 0 + 1)%nat with 1%nat in *.
  destruct (heapq._siftup_loop cmp_lt (length h) h (length h) 0 1)
    as [[h1 pos1]|] eqn:El; [|discriminate].
  simpl in E.
  apply (siftup_loop_inv cmp_lt (length h) h 0) in El as ([Hord Hgr] & Hleaf & L);
    [|lia|].
  2:{ split; [exact Hh|]. intros; lia. }
  eapply siftdown_heap; [exact _| |exact E].
  assert (Hkid : forall c, (0 < c)%nat -> parent c = pos1 -> <[pos1 := x]> h1 !! c = None).
  { intros c Hc Hpc. apply lookup_ge_None_2. rewrite length_insert.
    apply parent_children in Hpc; lia. }
  split.
  - intros i Hi Hne a b Ha Hb.
    destruct (decide (parent i = pos1)) as [Epo|Npo].
    { rewrite (Hkid i Hi Epo) in Ha. discriminate. }
    rewrite list_lookup_insert_ne in Ha, Hb by lia.
    apply (Hord i Hi Npo a b Ha Hb).
  - intros c a b H0 Hc Hpc Ha Hb. rewrite (Hkid c Hc Hpc) in Ha. discriminate.
Qed.

(** [heappop] keeps the heap and returns a smallest item. *)
Lemma heappop_heap h x h' :
  is_heap cmp_lt h -> heapq.heappop cmp_lt h = Some (x, h') ->
  is_heap cmp_lt h' /\ forall y, y ∈ h -> item_le cmp_lt x y.
Proof.
  intros Hh E.
  destruct (decide (h = [])) as [->|Hne]; [discriminate|].
  destruct (heappop_perm h Hne) as (x' & h'' & E' & _ & Hx).
  rewrite E in E'. injection E' as <- <-.
  split.
  2:{ intros y Hy. apply list_elem_of_lookup in Hy as [i Hi].
      eapply heap_root_minimal; eauto. }
  destruct (list_pop_nonempty h Hne) as (lastelt & h0 & -> & Ep).
  unfold heapq.heappop in E. rewrite Ep in E. simpl in E.
  destruct h0 as [|r h0].
  - injection E as <- <-. apply is_heap_nil.
  - destruct (heapq._siftup cmp_lt (<[0%nat := lastelt]> (r :: h0)) 0) as [h1|] eqn:Es;
      [|discriminate].
    simpl in E. injection E as <- <-.
    eapply siftup_heap; [|exact Es].
    apply is_heap_prefix in Hh.
    intros i Hi Hp a b Ha Hb.
    rewrite list_lookup_insert_ne in Ha, Hb by lia.
    apply (Hh i Hi a b Ha Hb).
Qed.
End heapq_spec.

(** ** The scheduler *)

Lemma Qlt_bool_iff x y : Qlt_bool x y = true <-> (x < y)%Q.
Proof.
  unfold Qlt_bool. rewrite negb_true_iff. split.
  - intros H. apply Qnot_le_lt. intros Hle. apply Qle_bool_iff in Hle. congruence.
  - intros H. destruct (Qle_bool y x) eqn:E; [|reflexivity].
    apply Qle_bool_iff in E. lra.
Qed.

Section tuple_order.
Variable addr : nat -> Z.

Lemma tuple_lt_iff x y :
  QuadModel.tuple_lt addr x y = true <->
  (fst x < fst y)%Q \/ ((fst x == fst y)%Q /\ addr (snd x) < addr (snd y)).
Proof.
  unfold QuadModel.tuple_lt.
  destruct (Qeq_bool (fst x) (fst y)) eqn:E; simpl.
  - apply Qeq_bool_iff in E.
    destruct (Z.eqb_spec (addr (snd x)) (addr (snd y))) as [Ea|Ea]; simpl.
    + split; [discriminate|]. intros [H|[_ H]]; [lra|lia].
    + rewrite Z.ltb_lt. split; [auto|]. intros [H|[_ H]]; [lra|exact H].
  - apply Qeq_bool_neq in E. rewrite Qlt_bool_iff.
    split; [auto|]. intros [H|[H _]]; [exact H|contradiction].
Qed.

Lemma tuple_lt_false x y :
  QuadModel.tuple_lt addr x y = false <->
  (fst y < fst x)%Q \/ ((fst x == fst y)%Q /\ addr (snd y) <= addr (snd x)).
Proof.
  rewrite <- not_true_iff_false, tuple_lt_iff.
  destruct (Qlt_le_dec (fst y) (fst x)), (Qlt_le_dec (fst x) (fst y)),
    (Z_lt_le_dec (addr (snd x)) (addr (snd y))); split; intros H;
    try (left; lra); try (right; split; [lra|lia]); try lra;
    try (intros [?|[? ?]]; try lra; try lia; destruct H as [?|[? ?]]; try lra; lia);
    try (exfalso; apply H; first [left; lra | right; split; [lra|lia]]).
Qed.

#[global] Instance tuple_lt_order : StrictWeakOrder (QuadModel.tuple_lt addr).
Proof.
  split.
  - intros x. apply tuple_lt_false. right. split; [reflexivity|lia].
  - intros x y z. rewrite !tuple_lt_iff.
    intros [H1|[H1 A1]] [H2|[H2 A2]]; try (left; lra). right. split; [lra|lia].
  - intros x y z. rewrite !tuple_lt_false.
    intros [H1|[H1 A1]] [H2|[H2 A2]]; try (left; lra). right. split; [lra|lia].
Qed.
End tuple_order.

Lemma Qsum_perm (l1 l2 : list Q) : l1 ≡ₚ l2 -> (Qsum l1 == Qsum l2)%Q.
Proof.
  induction 1 as [|x l1 l2 _ IH|x y l|l1 l2 l3 _ IH1 _ IH2]; simpl.
  - reflexivity.
  - rewrite IH. reflexivity.
  - ring.
  - rewrite IH1. exact IH2.
Qed.

(** The store after [split] on [quad]: the old objects keep their place
    and all but their children, the new ones follow. *)
Section store.
Context (objs : list Quadrant.t) (quad : nat) (q : Quadrant.t)
        (new : list Quadrant.t) (kids : list nat).
Hypothesis Hq : objs !! quad = Some q.
Let objs' := <[quad := Quadrant.set_children q kids]> (objs ++ new).

Lemma store_lookup_quad : objs' !! quad = Some (Quadrant.set_children q kids).
Proof.
  apply list_lookup_insert_eq. rewrite length_app.
  apply lookup_lt_Some in Hq. lia.
Qed.

Lemma store_lookup_old i : i <> quad -> (i < length objs)%nat -> objs' !! i = objs !! i.
Proof.
  intros Hne Hi. unfold objs'. rewrite list_lookup_insert_ne by lia.
  apply lookup_app_l, Hi.
Qed.

Lemma store_lookup_new k : objs' !! (length objs + k)%nat = new !! k.
Proof.
  unfold objs'. apply lookup_lt_Some in Hq.
  rewrite list_lookup_insert_ne by lia. rewrite lookup_app_r by lia.
  f_equal. lia.
Qed.

Lemma store_kept i qi :
  objs !! i = Some qi ->
  exists qi', objs' !! i = Some qi' /\
    Quadrant.coords qi' = Quadrant.coords qi /\
    Quadrant.area qi' = Quadrant.area qi /\
    Quadrant.error qi' = Quadrant.error qi /\
    Quadrant.color qi' = Quadrant.color qi /\
    (i <> quad -> qi' = qi).
Proof.
  intros Hi. destruct (decide (i = quad)) as [->|Hne].
  - rewrite Hq in Hi. injection Hi as <-.
    exists (Quadrant.set_children q kids). split; [apply store_lookup_quad|].
    repeat split. contradiction.
  - exists qi. rewrite store_lookup_old; [auto 10|exact Hne|].
    eapply lookup_lt_Some, Hi.
Qed.

Lemma store_error_at i :
  (i < length objs)%nat -> error_at objs' i = error_at objs i.
Proof.
  intros Hi. destruct (lookup_lt_is_Some_2 objs i Hi) as [qi Hqi].
  destruct (store_kept i qi Hqi) as (qi' & E & _ & Ha & He & _ & _).
  unfold error_at. rewrite E, Hqi. simpl. unfold weighted_error.
  rewrite Ha, He. reflexivity.
Qed.
End store.

(** ** The traversal of the tree and [split] *)

Lemma preorder_node fuel objs self q :
  objs !! self = Some q ->
  preorder (S fuel) objs self =
  (fun rest => self :: concat rest) <$> mapM (preorder fuel objs) (Quadrant.children q).
Proof.
  intros Hq. cbn [preorder]. rewrite Hq. simpl.
  destruct (mapM _ _); reflexivity.
Qed.

Lemma mapM_Some_ext {A B C} (f : A -> option B) (g : A -> option C) (h : B -> C)
    (l : list A) : forall rs : list B,
  (forall x r, x ∈ l -> f x = Some r -> g x = Some (h r)) ->
  mapM f l = Some rs -> mapM g l = Some (h <$> rs).
Proof.
  induction l as [|x l IH]; intros rs Hfg E.
  - injection E as <-. reflexivity.
  - change (mapM f (x :: l)) with (y ← f x; k ← mapM f l; mret (y :: k)) in E.
    change (mapM g (x :: l)) with (y ← g x; k ← mapM g l; mret (y :: k)).
    destruct (f x) as [r|] eqn:Ex; [|discriminate]. simpl in E.
    destruct (mapM f l) as [rs'|] eqn:El; [|discriminate]. injection E as <-.
    rewrite (Hfg x r ltac:(left) Ex). simpl.
    rewrite (IH rs'); [reflexivity| |reflexivity].
    intros y ry Hy. apply Hfg. right. exact Hy.
Qed.

Lemma preorder_mono fuel : forall objs i ns fuel',
  preorder fuel objs i = Some ns -> (fuel <= fuel')%nat ->
  preorder fuel' objs i = Some ns.
Proof.
  induction fuel as [|fuel IH]; intros objs i ns fuel' E Hle; [discriminate|].
  destruct fuel' as [|fuel']; [lia|].
  cbn [preorder] in *.
  destruct (objs !! i) as [q|]; [|discriminate]. simpl in *.
  destruct (mapM (preorder fuel objs) (Quadrant.children q)) as [rs|] eqn:Em;
    [|discriminate].
  simpl in E. injection E as <-.
  rewrite (mapM_Some_ext _ (preorder fuel' objs) id _ rs) with (2 := Em).
  - rewrite list_fmap_id. reflexivity.
  - intros k r _ Hk. apply (IH _ _ _ _ Hk). lia.
Qed.

Lemma concat_bind {A B} (f : A -> list B) (rs : list (list A)) :
  concat ((fun r => r ≫= f) <$> rs) = concat rs ≫= f.
Proof.
  induction rs as [|r rs IH]; [reflexivity|].
  simpl. rewrite bind_app, <- IH. reflexivity.
Qed.

Lemma graft_perm j kids (l : list nat) :
  NoDup l -> j ∈ l -> l ≫= graft j kids ≡ₚ l ++ kids.
Proof.
  induction l as [|x l IH]; intros Hnd Hin; [apply elem_of_nil in Hin; contradiction|].
  apply list.NoDup_cons in Hnd as [Hx Hnd].
  rewrite bind_cons. unfold graft at 1. destruct (decide (x = j)) as [->|Hne].
  - assert (E : l ≫= graft j kids = l).
    { clear -Hx. induction l as [|y l IH]; [reflexivity|].
      rewrite bind_cons, IH by (intros H; apply Hx; right; exact H).
      unfold graft. destruct (decide (y = j)) as [->|_]; [|reflexivity].
      exfalso. apply Hx. left. }
    rewrite E. simpl. f_equiv. apply Permutation_app_comm.
  - apply elem_of_cons in Hin as [->|Hin]; [contradiction|].
    simpl. f_equiv. apply IH; assumption.
Qed.

Section preorder_split.
Context (objs : list Quadrant.t) (j : nat) (q : Quadrant.t)
        (new : list Quadrant.t).
Hypothesis Htree : tree_ok objs.
Hypothesis Hq : objs !! j = Some q.
Hypothesis Hleaf : Quadrant.children q = [].
Hypothesis Hnew : Forall (fun k => Quadrant.children k = []) new.
Let kids := seq (length objs) (length new).
Let objs' := <[j := Quadrant.set_children q kids]> (objs ++ new).

Lemma preorder_new fuel k :
  k ∈ kids -> preorder (S fuel) objs' k = Some [k].
Proof.
  intros Hk. apply elem_of_seq in Hk.
  assert (E : objs' !! k = new !! (k - length objs)%nat).
  { replace k with (length objs + (k - length objs))%nat at 1 by lia.
    exact (store_lookup_new objs j q new kids Hq (k - length objs)). }
  destruct (lookup_lt_is_Some_2 new (k - length objs)%nat) as [qk Hqk]; [lia|].
  assert (Hc : Quadrant.children qk = []).
  { apply (proj1 (list.Forall_forall _ _) Hnew qk).
    eapply list_elem_of_lookup_2, Hqk. }
  rewrite (preorder_node _ objs' k qk) by (rewrite E; exact Hqk).
  rewrite Hc. reflexivity.
Qed.

Lemma preorder_split fuel : forall i ns,
  (i < length objs)%nat ->
  preorder fuel objs i = Some ns ->
  preorder (S fuel) objs' i = Some (ns ≫= graft j kids).
Proof.
  induction fuel as [|fuel IH]; intros i ns Hi E; [discriminate|].
  cbn [preorder] in E.
  destruct (objs !! i) as [qi|] eqn:Hqi; [|discriminate]. simpl in E.
  destruct (mapM (preorder fuel objs) (Quadrant.children qi)) as [rs|] eqn:Em;
    [|discriminate].
  simpl in E. injection E as <-.
  rewrite bind_cons. unfold graft at 1.
  destruct (decide (i = j)) as [->|Hne].
  - rewrite Hq in Hqi. injection Hqi as <-. rewrite Hleaf in Em.
    injection Em as <-.
    rewrite (preorder_node _ objs' j _ (store_lookup_quad objs j q new kids Hq)).
    change (Quadrant.children (Quadrant.set_children q kids)) with kids.
    assert (Ek : mapM (preorder (S fuel) objs') kids = Some ((fun k => [k]) <$> kids)).
    { apply (mapM_Some_ext (fun k => Some k) _ (fun k => [k])).
      - intros k r Hk [= <-]. apply preorder_new, Hk.
      - clear. induction kids as [|k ks IHk]; [reflexivity|].
        change (mapM ?f (k :: ks)) with (y ← f k; r ← mapM f ks; mret (y :: r)).
        simpl. rewrite IHk. reflexivity. }
    rewrite Ek. simpl. f_equal. f_equal. rewrite app_nil_r.
    clear. induction kids as [|k ks IHk]; [reflexivity|]. simpl. f_equal. exact IHk.
  - assert (Hi' : objs' !! i = Some qi).
    { unfold objs'. rewrite store_lookup_old; [exact Hqi|exact Hne|exact Hi]. }
    rewrite (preorder_node _ objs' i _ Hi').
    rewrite (mapM_Some_ext _ (preorder (S fuel) objs') (fun r => r ≫= graft j kids) _ rs)
      with (2 := Em).
    + simpl. rewrite concat_bind. reflexivity.
    + intros k r Hk Er. apply IH; [|exact Er].
      destruct (Htree i qi Hqi) as (_ & _ & [Hnil|(n & Hkids & _ & HF)]).
      * rewrite Hnil in Hk. apply elem_of_nil in Hk. contradiction.
      * rewrite Hkids in Hk. apply list_elem_of_lookup in Hk as [p Hp].
        destruct (Forall2_lookup_l _ _ _ _ _ HF Hp) as (c & _ & qk & Hqk & _).
        eapply lookup_lt_Some, Hqk.
Qed.
End preorder_split.

Section scheduler.
Variable pow_quarter : Z -> Q.
Variable addr : nat -> Z.

Abbreviation push := (QuadModel.push pow_quarter addr).
Abbreviation pop := (QuadModel.pop addr).
Abbreviation tuple_lt := (QuadModel.tuple_lt addr).

Abbreviation score := (score pow_quarter).
Abbreviation Inv := (Inv pow_quarter addr).

Lemma frontier_error_perm objs h1 h2 :
  h1 ≡ₚ h2 -> (frontier_error objs h1 == frontier_error objs h2)%Q.
Proof. intros P. unfold frontier_error. apply Qsum_perm. rewrite P. reflexivity. Qed.

Lemma frontier_error_cons objs s k h q :
  objs !! k = Some q ->
  (frontier_error objs ((s, k) :: h) == weighted_error q + frontier_error objs h)%Q.
Proof.
  intros Hk. unfold frontier_error. simpl. unfold error_at at 1. rewrite Hk.
  reflexivity.
Qed.

Lemma push_inv m k qk :
  Inv m -> QuadModel.objs m !! k = Some qk -> Quadrant.children qk = [] ->
  k ∉ (QuadModel.heap m).*2 ->
  exists m', push m k = Some m' /\ Inv m' /\
    QuadModel.objs m' = QuadModel.objs m /\
    QuadModel.quad_im m' = QuadModel.quad_im m /\
    QuadModel.scale m' = QuadModel.scale m /\
    QuadModel.heap m' ≡ₚ (score qk, k) :: QuadModel.heap m /\
    QuadModel.model_error m' = (QuadModel.model_error m + weighted_error qk)%Q.
Proof.
  intros [Hr Ht Hh Hn He Hm Hb Hnodes] Hk Hc Hfresh.
  destruct (Ht k qk Hk) as (Hbox & Harea & _).
  unfold QuadModel.push. rewrite Hk. simpl.
  unfold QuadModel.float_pow_quarter.
  destruct (Z.ltb_spec (Quadrant.area qk) 0) as [Hneg|_].
  { pose proof (compute_area_nonneg _ Hbox). lia. }
  simpl.
  destruct (heappush_perm tuple_lt (QuadModel.heap m) (score qk, k)) as (h' & E & P).
  unfold score in E at 1. rewrite E. simpl.
  eexists. split; [reflexivity|].
  split; [|repeat split; simpl; auto].
  split; simpl.
  - exact Hr.
  - exact Ht.
  - eapply heappush_heap; [exact _|exact Hh|exact E].
  - rewrite P. simpl. apply NoDup_cons_2; assumption.
  - rewrite P. constructor; [|exact He].
    exists qk. simpl. auto.
  - rewrite (frontier_error_perm _ _ _ P), (frontier_error_cons _ _ _ _ _ Hk), Hm.
    fold (weighted_error qk). ring.
  - exact Hb.
  - exact Hnodes.
Qed.

Lemma pop_inv m :
  Inv m -> QuadModel.heap m <> [] ->
  exists quad q m', pop m = Some (quad, m') /\ Inv m' /\
    QuadModel.objs m' = QuadModel.objs m /\
    QuadModel.quad_im m' = QuadModel.quad_im m /\
    QuadModel.scale m' = QuadModel.scale m /\
    QuadModel.objs m !! quad = Some q /\ Quadrant.children q = [] /\
    QuadModel.heap m ≡ₚ (score q, quad) :: QuadModel.heap m' /\
    (quad ∉ (QuadModel.heap m').*2) /\
    QuadModel.model_error m' = (QuadModel.model_error m - weighted_error q)%Q /\
    (forall e, e ∈ QuadModel.heap m -> item_le tuple_lt (score q, quad) e) /\
    heapq.heappop tuple_lt (QuadModel.heap m) = Some ((score q, quad), QuadModel.heap m').
Proof.
  intros [Hr Ht Hh Hn He Hm Hb Hnodes] Hne.
  destruct (heappop_perm tuple_lt (QuadModel.heap m) Hne) as ([s quad] & h' & E & P & _).
  destruct (heappop_heap tuple_lt _ _ _ Hh E) as [Hh' Hmin].
  assert (Hin : (s, quad) ∈ QuadModel.heap m) by (rewrite P; left).
  destruct (proj1 (list.Forall_forall _ _) He _ Hin) as (q & Hq & Hc & Hs).
  simpl in Hq, Hs. subst s.
  rewrite P in Hn, He. simpl in Hn. apply list.NoDup_cons in Hn as [Hnot Hn'].
  apply list.Forall_cons in He as [_ He'].
  unfold QuadModel.pop. rewrite E. simpl. rewrite Hq. simpl.
  exists quad, q. eexists. split; [reflexivity|].
  split; [|repeat split; simpl; auto].
  split; simpl; try assumption.
  rewrite Hm, (frontier_error_perm _ _ _ P), (frontier_error_cons _ _ _ _ _ Hq).
  fold (weighted_error q). ring.
Qed.
End scheduler.

Section scheduler_steps.
Variable pow_quarter : Z -> Q.
Variable addr : nat -> Z.

Abbreviation push := (QuadModel.push pow_quarter addr).
Abbreviation pop := (QuadModel.pop addr).
Abbreviation tuple_lt := (QuadModel.tuple_lt addr).
Abbreviation Inv := (Inv pow_quarter addr).
Abbreviation score := (score pow_quarter).

Lemma quadrant_split_inv m quad q :
  Inv m -> QuadModel.objs m !! quad = Some q -> Quadrant.children q = [] ->
  quad ∉ (QuadModel.heap m).*2 ->
  let n := length (QuadModel.objs m) in
  exists objs',
    Quadrant.split (QuadImage.im (QuadModel.quad_im m)) (QuadModel.objs m) quad
      = Some (seq n 4, objs') /\
    Inv (QuadModel.set_objs m objs') /\
    length objs' = (n + 4)%nat /\
    Forall (fun k => (exists qk, objs' !! k = Some qk /\ Quadrant.children qk = []) /\
                     k ∉ (QuadModel.heap m).*2) (seq n 4).
Proof.
  intros [Hr Ht Hh Hn He Hm Hrb Hnodes] Hq Hc Hfresh n.
  destruct (split_eq (QuadImage.im (QuadModel.quad_im m)) _ _ _ Hq)
    as (t_l & t_r & b_l & b_r & Hs & Hf).
  cbv zeta in Hs. fold n in Hs.
  set (kids := [n; S n; S (S n); S (S (S n))]) in *.
  set (new := [t_l; t_r; b_l; b_r]) in *.
  set (objs' := <[quad := Quadrant.set_children q kids]> (QuadModel.objs m ++ new)) in *.
  assert (Hqn : (quad < n)%nat) by (eapply lookup_lt_Some, Hq).
  assert (Hqn' : (0 < n)%nat) by lia.
  assert (Hbound : forall e, e ∈ QuadModel.heap m -> (snd e < n)%nat).
  { intros e Hin. destruct (proj1 (list.Forall_forall _ _) He _ Hin) as (qe & Hqe & _).
    eapply lookup_lt_Some, Hqe. }
  assert (Hbq : box_ok (Quadrant.coords q)) by (apply (Ht _ _ Hq)).
  assert (Hnew : Forall2 (fun k c => exists qk, objs' !! k = Some qk /\
                   Quadrant.coords qk = c /\ Quadrant.children qk = [] /\
                   Quadrant.area qk = Quadrant.compute_area c)
                 (seq n 4) (Quadrant.split_coords (Quadrant.coords q))).
  { pose proof (store_lookup_new _ quad q new kids Hq) as L. fold objs' n in L.
    destruct (Quadrant.split_coords (Quadrant.coords q)) as [|c1 [|c2 [|c3 [|c4 [|]]]]];
      try (apply Forall2_length in Hf; simpl in Hf; lia).
    apply Forall2_cons_1 in Hf as [(_ & C1 & _ & A1 & K1) Hf].
    apply Forall2_cons_1 in Hf as [(_ & C2 & _ & A2 & K2) Hf].
    apply Forall2_cons_1 in Hf as [(_ & C3 & _ & A3 & K3) Hf].
    apply Forall2_cons_1 in Hf as [(_ & C4 & _ & A4 & K4) _].
    simpl. repeat constructor.
    - exists t_l. rewrite <- (Nat.add_0_r n), L. auto.
    - exists t_r. replace (S n) with (n + 1)%nat by lia. rewrite L. auto.
    - exists b_l. replace (S (S n)) with (n + 2)%nat by lia. rewrite L. auto.
    - exists b_r. replace (S (S (S n))) with (n + 3)%nat by lia. rewrite L. auto. }
  exists objs'. split; [exact Hs|]. split; [|split].
  - split; simpl; try assumption.
    + (* the tree *)
      intros i qi' Hi.
      destruct (decide (i < n)%nat) as [Hlt|Hge].
      * destruct (lookup_lt_is_Some_2 (QuadModel.objs m) i Hlt) as [qi Hqi].
        destruct (store_kept _ quad q new kids Hq i qi Hqi) as (qi2 & E & Hco & Har & _ & _ & Hsame).
        fold objs' in E. rewrite E in Hi. injection Hi as <-.
        destruct (Ht i qi Hqi) as (Hb & Ha & Hch).
        split; [rewrite Hco; exact Hb|]. split; [rewrite Hco, Har; exact Ha|].
        destruct (decide (i = quad)) as [->|Hne].
        -- right. exists n. rewrite Hq in Hqi. injection Hqi as <-.
           pose proof (store_lookup_quad _ quad q new kids Hq) as E2.
           fold objs' in E2. rewrite E2 in E. injection E as <-.
           split; [reflexivity|]. split; [exact Hqn|].
           change (Quadrant.coords (Quadrant.set_children q kids))
             with (Quadrant.coords q).
           eapply Forall2_impl; [|exact Hnew]. simpl.
           intros k c (qk & ? & ? & _). eauto.
        -- rewrite (Hsame Hne). destruct Hch as [Hnil|(n' & Hk & Hin & Hkids)];
             [left; exact Hnil|].
           right. exists n'. split; [exact Hk|]. split; [exact Hin|].
           eapply Forall2_impl; [|exact Hkids]. simpl.
           intros k c (qk & Hqk & Hck).
           destruct (store_kept _ quad q new kids Hq k qk Hqk) as (qk' & E' & Hco' & _).
           exists qk'. split; [exact E'|]. rewrite Hco'. exact Hck.
      * assert (Hin : i ∈ seq n 4).
        { apply elem_of_seq. apply lookup_lt_Some in Hi.
          unfold objs' in Hi. rewrite length_insert, length_app in Hi.
          simpl in Hi. fold n in Hi. lia. }
        apply list_elem_of_lookup in Hin as [j Hj].
        destruct (Forall2_lookup_l _ _ _ _ _ Hnew Hj) as (c & Hc' & qk & Hqk & Hck & Hkk & Hak).
        rewrite Hqk in Hi. injection Hi as <-.
        split.
        { rewrite Hck.
          apply (proj1 (list.Forall_forall _ _) (split_coords_ok _ Hbq)).
          eapply list_elem_of_lookup_2, Hc'. }
        split; [rewrite Hck; exact Hak|]. left. exact Hkk.
    + (* the entries *)
      apply list.Forall_forall. intros e Hin.
      destruct (proj1 (list.Forall_forall _ _) He _ Hin) as (qe & Hqe & Hce & Hse).
      exists qe. split; [|auto]. unfold objs'.
      rewrite store_lookup_old; [exact Hqe| |apply (Hbound e Hin)].
      intros Heq. apply Hfresh. rewrite <- Heq.
      apply list_elem_of_fmap. exists e. auto.
    + (* the error *)
      rewrite Hm. apply Qplus_comp.
      * unfold frontier_error. apply Qsum_perm.
        rewrite <- !list_fmap_compose.
        erewrite list_fmap_ext; [reflexivity|]. intros j e Hje. simpl.
        symmetry. apply store_error_at; [exact Hq|].
        apply Hbound. eapply list_elem_of_lookup_2, Hje.
      * unfold objs'. rewrite store_error_at; [reflexivity|exact Hq|fold n; lia].
    + (* the root *)
      destruct Hrb as (rootq & Hroot & Hbox).
      destruct (store_kept _ quad q new kids Hq 0%nat rootq Hroot)
        as (rootq' & E & Hco & _).
      exists rootq'. split; [exact E|]. rewrite Hco. exact Hbox.
    + (* the traversal *)
      destruct Hnodes as (nodes & En & Pn).
      assert (Hkn : Forall (fun k => Quadrant.children k = []) new).
      { repeat constructor;
          [apply (Forall2_lookup_r _ _ _ 0%nat t_l) in Hf as (? & _ & ? & ? & ? & ? & ?)
          |apply (Forall2_lookup_r _ _ _ 1%nat t_r) in Hf as (? & _ & ? & ? & ? & ? & ?)
          |apply (Forall2_lookup_r _ _ _ 2%nat b_l) in Hf as (? & _ & ? & ? & ? & ? & ?)
          |apply (Forall2_lookup_r _ _ _ 3%nat b_r) in Hf as (? & _ & ? & ? & ? & ? & ?)];
          try assumption; reflexivity. }
      pose proof (preorder_split _ quad q new Ht Hq Hc Hkn n 0%nat nodes Hqn' En) as Es.
      exists (nodes ≫= graft quad (seq n 4)). split.
      * apply (preorder_mono _ _ _ _ _ Es).
        unfold objs'. rewrite length_insert, length_app. simpl. fold n. lia.
      * unfold objs'. rewrite length_insert, length_app. simpl. fold n.
        rewrite graft_perm.
        -- rewrite Pn. fold n. rewrite seq_app. reflexivity.
        -- rewrite Pn. apply NoDup_seq.
        -- rewrite Pn. apply elem_of_seq. lia.
  - unfold objs'. rewrite length_insert, length_app. reflexivity.
  - apply list.Forall_forall. intros k Hk. split.
    + apply list_elem_of_lookup in Hk as [j Hj].
      destruct (Forall2_lookup_l _ _ _ _ _ Hnew Hj) as (c & _ & qk & Hqk & _ & Hkk & _).
      eauto.
    + intros Hin. apply list_elem_of_fmap in Hin as (e & -> & Hin).
      apply Hbound in Hin. apply elem_of_seq in Hk. lia.
Qed.
End scheduler_steps.

Section scheduler_run.
Variable pow_quarter : Z -> Q.
Variable addr : nat -> Z.

Abbreviation push := (QuadModel.push pow_quarter addr).
Abbreviation push_all := (QuadModel.push_all pow_quarter addr).
Abbreviation pop := (QuadModel.pop addr).
Abbreviation split := (QuadModel.split pow_quarter addr).
Abbreviation steps := (QuadModel.steps pow_quarter addr).
Abbreviation init := (QuadModel.init pow_quarter addr).
Abbreviation tuple_lt := (QuadModel.tuple_lt addr).
Abbreviation Inv := (Inv pow_quarter addr).
Abbreviation score := (score pow_quarter).

Lemma push_all_inv ks : forall m,
  Inv m -> NoDup ks ->
  (forall k, k ∈ ks ->
     (exists qk, QuadModel.objs m !! k = Some qk /\ Quadrant.children qk = []) /\
     k ∉ (QuadModel.heap m).*2) ->
  exists m', push_all m ks = Some m' /\ Inv m' /\
    QuadModel.objs m' = QuadModel.objs m /\
    QuadModel.quad_im m' = QuadModel.quad_im m /\
    QuadModel.scale m' = QuadModel.scale m /\
    (QuadModel.heap m').*2 ≡ₚ ks ++ (QuadModel.heap m).*2 /\
    (QuadModel.model_error m' ==
     QuadModel.model_error m + Qsum (error_at (QuadModel.objs m) <$> ks))%Q.
Proof.
  induction ks as [|k ks IH]; intros m Hinv Hnd Hks.
  - exists m. split; [reflexivity|]. split; [exact Hinv|].
    do 4 (split; [reflexivity|]). simpl. ring.
  - apply list.NoDup_cons in Hnd as [Hk Hnd].
    destruct (Hks k ltac:(left)) as [(qk & Hqk & Hck) Hfresh].
    destruct (push_inv pow_quarter addr m k qk Hinv Hqk Hck Hfresh)
      as (m1 & E1 & Hinv1 & Ho1 & Hi1 & Hs1 & Hp1 & He1).
    destruct (IH m1 Hinv1 Hnd) as (m' & E & Hinv' & Ho & Hi & Hs & Hp & He).
    { intros k' Hk'. destruct (Hks k' ltac:(right; exact Hk')) as [Hobj Hfr].
      rewrite Ho1. split; [exact Hobj|]. rewrite Hp1. simpl.
      intros Hin. apply elem_of_cons in Hin as [->|Hin]; contradiction. }
    exists m'. unfold QuadModel.push_all in *. simpl. rewrite E1.
    split; [exact E|]. split; [exact Hinv'|].
    split; [congruence|]. split; [congruence|]. split; [congruence|].
    split.
    + rewrite Hp, Hp1. simpl. symmetry. apply Permutation_middle.
    + rewrite He, He1, Ho1. simpl.
      assert (Ek : error_at (QuadModel.objs m) k = weighted_error qk)
        by (unfold error_at; rewrite Hqk; reflexivity).
      rewrite Ek. unfold fmap. ring.
Qed.

(** One [split] of the scheduler: it does not fail, keeps the
    invariant and grows the frontier by three. *)
Lemma split_inv m :
  Inv m -> QuadModel.heap m <> [] ->
  exists m', split m = Some m' /\ Inv m' /\
    length (QuadModel.heap m') = (length (QuadModel.heap m) + 3)%nat /\
    QuadModel.quad_im m' = QuadModel.quad_im m /\
    QuadModel.scale m' = QuadModel.scale m /\
    exists s quad h',
      heapq.heappop tuple_lt (QuadModel.heap m) = Some ((s, quad), h') /\
      Quadrant.split (QuadImage.im (QuadModel.quad_im m)) (QuadModel.objs m) quad
        = Some (seq (length (QuadModel.objs m)) 4, QuadModel.objs m') /\
      (QuadModel.model_error m' ==
       QuadModel.model_error m - error_at (QuadModel.objs m) quad
       + Qsum (error_at (QuadModel.objs m') <$> seq (length (QuadModel.objs m)) 4))%Q /\
      (QuadModel.heap m').*2 ≡ₚ seq (length (QuadModel.objs m)) 4 ++ h'.*2.
Proof.
  intros Hinv Hne.
  destruct (pop_inv pow_quarter addr m Hinv Hne)
    as (quad & q & m1 & E1 & Hinv1 & Ho1 & Hi1 & Hs1 & Hq & Hc & Hp1 & Hfr1 & He1 & _ & Epop).
  pose proof Hq as Hq0. rewrite <- Ho1 in Hq.
  destruct (quadrant_split_inv pow_quarter addr m1 quad q Hinv1 Hq Hc Hfr1)
    as (objs' & E2 & Hinv2 & Hlen & Hkids).
  destruct (push_all_inv (seq (length (QuadModel.objs m1)) 4)
              (QuadModel.set_objs m1 objs') Hinv2)
    as (m' & E3 & Hinv3 & Ho3 & Hi3 & Hs3 & Hp3 & He3).
  { apply NoDup_seq. }
  { intros k Hk. apply (proj1 (list.Forall_forall _ _) Hkids k Hk). }
  exists m'. unfold QuadModel.split. rewrite E1. simpl. rewrite E2. simpl.
  split; [exact E3|]. split; [exact Hinv3|].
  split.
  { apply Permutation_length in Hp1, Hp3.
    rewrite length_fmap in Hp3. rewrite Hp3, Hp1, length_app, length_fmap. simpl. lia. }
  split; [simpl in *; congruence|]. split; [simpl in *; congruence|].
  exists (score q), quad, (QuadModel.heap m1).
  split; [exact Epop|]. simpl in Ho3. rewrite Ho3, <- Ho1, <- Hi1.
  split; [exact E2|].
  assert (Eq : error_at (QuadModel.objs m1) quad = weighted_error q)
    by (unfold error_at; rewrite Hq; reflexivity).
  split; [|exact Hp3].
  rewrite He3, Eq. simpl. rewrite He1. reflexivity.
Qed.

Lemma steps_inv k : forall m,
  Inv m -> QuadModel.heap m <> [] ->
  exists m', steps k m = Some m' /\ Inv m' /\
    length (QuadModel.heap m') = (length (QuadModel.heap m) + 3 * k)%nat /\
    QuadModel.quad_im m' = QuadModel.quad_im m /\
    QuadModel.scale m' = QuadModel.scale m.
Proof.
  induction k as [|k IH]; intros m Hinv Hne.
  - exists m. split; [reflexivity|]. split; [exact Hinv|].
    split; [lia|]. split; reflexivity.
  - destruct (split_inv m Hinv Hne) as (m1 & E1 & Hinv1 & Hl1 & Hi1 & Hs1 & _).
    destruct (IH m1 Hinv1) as (m' & E & Hinv' & Hl & Hi & Hs).
    { intros Hnil. rewrite Hnil in Hl1. simpl in Hl1. lia. }
    exists m'. simpl. rewrite E1. simpl.
    split; [exact E|]. split; [exact Hinv'|].
    split; [lia|]. split; congruence.
Qed.

(** The fresh scheduler: the root is its only object and the only
    entry of its heap, and its error is counted twice. *)
Lemma init_inv image scale :
  exists m rootq,
    init image scale = Some m /\ Inv m /\
    QuadModel.objs m = [rootq] /\ QuadModel.root m = 0%nat /\
    QuadModel.heap m = [(score rootq, 0%nat)] /\
    QuadModel.model_error m = (weighted_error rootq + weighted_error rootq)%Q /\
    QuadModel.quad_im m = QuadImage.init image /\
    QuadModel.scale m = scale /\
    fresh_quadrant image 0
      (0, 0, Z.of_nat (fst (PIL.size image)), Z.of_nat (snd (PIL.size image))) rootq.
Proof.
  unfold QuadModel.init, QuadImage.init.
  destruct (PIL.size image) as [w h] eqn:Hsz. simpl.
  destruct (init_fresh image (0, 0, Z.of_nat w, Z.of_nat h) 0) as (rootq & Hfr).
  destruct Hfr as (E & Hc & Hd & Ha & Hk). rewrite E. simpl.
  set (m0 := QuadModel.mk _ _ _ _ _ _).
  assert (Hinv0 : Inv m0).
  { split; simpl.
    - reflexivity.
    - intros i q Hi. destruct i as [|i]; [|discriminate].
      injection Hi as <-. split; [rewrite Hc; simpl; lia|].
      split; [rewrite Hc; exact Ha|]. left. exact Hk.
    - apply is_heap_nil.
    - constructor.
    - constructor.
    - unfold frontier_error, error_at. simpl. fold (weighted_error rootq). ring.
    - exists rootq. split; [reflexivity|exact Hc].
    - exists [0%nat]. cbn [length preorder]. simpl. rewrite Hk. split; reflexivity. }
  destruct (push_inv pow_quarter addr m0 0%nat rootq Hinv0 eq_refl Hk)
    as (m & Em & Hinv & Ho & Hi & Hs & Hp & He).
  { simpl. apply not_elem_of_nil. }
  exists m, rootq. split; [exact Em|]. split; [exact Hinv|].
  split; [exact Ho|]. split; [apply Hinv|].
  split; [apply Permutation_singleton_r; exact Hp|].
  split; [exact He|]. split; [exact Hi|]. split; [exact Hs|].
  repeat split; assumption.
Qed.
End scheduler_run.

Section claims.
Variable pow_quarter : Z -> Q.
Variable addr : nat -> Z.

Abbreviation pop := (QuadModel.pop addr).
Abbreviation steps := (QuadModel.steps pow_quarter addr).
Abbreviation init := (QuadModel.init pow_quarter addr).
Abbreviation tuple_lt := (QuadModel.tuple_lt addr).
Abbreviation Inv := (Inv pow_quarter addr).
Abbreviation score := (score pow_quarter).
Abbreviation priority := (priority pow_quarter).
Abbreviation frontier_ok := (frontier_ok pow_quarter addr).

(** The states a fresh scheduler reaches by its steps. *)
Lemma reachable_inv image scale k :
  exists m0 m, init image scale = Some m0 /\ steps k m0 = Some m /\ Inv m /\
    length (QuadModel.heap m) = (1 + 3 * k)%nat /\
    QuadModel.quad_im m = QuadImage.init image /\ QuadModel.scale m = scale.
Proof.
  destruct (init_inv pow_quarter addr image scale)
    as (m0 & rootq & E0 & Hinv0 & _ & _ & Hh0 & _ & Hi0 & Hs0 & _).
  destruct (steps_inv pow_quarter addr k m0 Hinv0) as (m & E & Hinv & Hl & Hi & Hs).
  { rewrite Hh0. discriminate. }
  exists m0, m. rewrite Hh0 in Hl. simpl in Hl.
  split; [exact E0|]. split; [exact E|]. split; [exact Hinv|].
  split; [exact Hl|]. split; congruence.
Qed.

(** C7: after [k] steps of a fresh scheduler, none of which fails, the
    frontier holds [1 + 3 * k] quadrants. *)
Theorem frontier_size_after_steps image scale k :
  exists m0 m, init image scale = Some m0 /\ steps k m0 = Some m /\
    length (QuadModel.heap m) = (1 + 3 * k)%nat.
Proof.
  destruct (reachable_inv image scale k) as (m0 & m & E0 & E & _ & Hl & _).
  eauto.
Qed.



Lemma inv_frontier_ok m : Inv m -> frontier_ok m.
Proof.
  intros [Hr Ht Hh Hn He Hm Hb Hnodes]. split; [exact Hh|].
  intros s i Hin.
  destruct (proj1 (list.Forall_forall _ _) He _ Hin) as (q & Hq & _ & Hs).
  eauto.
Qed.

(** X21: the frontier of every state a fresh scheduler reaches is a heap
    in the order of [heapq], every entry of which carries the score of
    its quadrant, and it is not empty: no step finds the heap empty. *)
Lemma reachable_frontier_ok image scale k :
  exists m0 m, init image scale = Some m0 /\ steps k m0 = Some m /\
    frontier_ok m /\ QuadModel.heap m <> [].
Proof.
  destruct (reachable_inv image scale k) as (m0 & m & E0 & E & Hinv & Hl & _).
  exists m0, m. split; [exact E0|]. split; [exact E|].
  split; [apply inv_frontier_ok, Hinv|].
  intros Hnil. rewrite Hnil in Hl. simpl in Hl. lia.
Qed.

End claims.

(** ** The leaves of the tree *)

Lemma boxes_of_app objs l1 l2 :
  boxes_of objs (l1 ++ l2) = boxes_of objs l1 ++ boxes_of objs l2.
Proof. apply omap_app. Qed.

Lemma foldl_extend_None {A B} (g : B -> option (list A)) (kids : list B) :
  foldl (fun leaf_nodes child => acc ← leaf_nodes; ls ← g child; Some (acc ++ ls))
        None kids = None.
Proof. induction kids as [|k kids IH]; simpl; [reflexivity|exact IH]. Qed.

Lemma foldl_extend {A B} (g : B -> option (list A)) (kids : list B) : forall acc,
  foldl (fun leaf_nodes child => acc ← leaf_nodes; ls ← g child; Some (acc ++ ls))
        (Some acc) kids
  = (fun r => acc ++ concat r) <$> mapM g kids.
Proof.
  induction kids as [|k kids IH]; intros acc; simpl.
  - rewrite app_nil_r. reflexivity.
  - destruct (g k) as [ls|]; simpl; [|apply foldl_extend_None].
    rewrite IH. destruct (mapM g kids); simpl; [|reflexivity].
    rewrite app_assoc. reflexivity.
Qed.

Lemma get_leaf_nodes_S fuel objs self :
  Quadrant.get_leaf_nodes (S fuel) objs self =
  q ← objs !! self;
  match Quadrant.children q with
  | [] => Some [self]
  | kids => (fun r => concat r) <$> mapM (Quadrant.get_leaf_nodes fuel objs) kids
  end.
Proof.
  simpl. destruct (objs !! self) as [q|]; simpl; [|reflexivity].
  destruct (Quadrant.children q) as [|k kids]; [reflexivity|].
  apply (foldl_extend (Quadrant.get_leaf_nodes fuel objs) (k :: kids) []).
Qed.

Lemma get_leaf_nodes_children fuel objs self q k ks :
  objs !! self = Some q -> Quadrant.children q = k :: ks ->
  Quadrant.get_leaf_nodes (S fuel) objs self =
  (fun r => concat r) <$> mapM (Quadrant.get_leaf_nodes fuel objs) (k :: ks).
Proof. intros Hq Hk. rewrite get_leaf_nodes_S, Hq. simpl. rewrite Hk. reflexivity. Qed.

Section tiling.
Variable objs : list Quadrant.t.
Hypothesis Htree : tree_ok objs.

Abbreviation tiles := (tiles objs).

Lemma children_tile fuel ks cs :
  (forall k c qk, k ∈ ks -> objs !! k = Some qk -> Quadrant.coords qk = c ->
     tiles fuel k c) ->
  Forall2 (fun k c => exists qk, objs !! k = Some qk /\ Quadrant.coords qk = c) ks cs ->
  exists lss nss,
    mapM (Quadrant.get_leaf_nodes fuel objs) ks = Some lss /\
    mapM (preorder fuel objs) ks = Some nss /\
    concat lss = filter (childless objs) (concat nss) /\
    length (boxes_of objs (concat lss)) = length (concat lss) /\
    forall p, covering p (boxes_of objs (concat lss)) = covering p cs.
Proof.
  intros IH HF. induction HF as [|k c ks cs (qk & Hqk & Hc) _ IHF].
  - exists [], []. repeat split; reflexivity.
  - destruct (IH k c qk ltac:(left) Hqk Hc) as (ls & ns & E1 & E2 & Hf & Hl & Hcov).
    destruct IHF as (lss & nss & M1 & M2 & Hf' & Hl' & Hcov').
    { intros k' c' qk' Hin. apply IH. right. exact Hin. }
    exists (ls :: lss), (ns :: nss). simpl. rewrite E1, E2, M1, M2. simpl.
    split; [reflexivity|]. split; [reflexivity|].
    split; [rewrite list.filter_app, Hf, Hf'; reflexivity|].
    split; [rewrite boxes_of_app, !length_app, Hl, Hl'; reflexivity|].
    intros p. rewrite boxes_of_app, covering_app, covering_cons, Hcov, Hcov'.
    reflexivity.
Qed.

Lemma leaves_tile fuel : forall i q,
  objs !! i = Some q -> (length objs - i <= fuel)%nat ->
  tiles fuel i (Quadrant.coords q).
Proof.
  induction fuel as [|fuel IH]; intros i q Hq Hfuel.
  { apply lookup_lt_Some in Hq. lia. }
  destruct (Htree i q Hq) as (Hbox & _ & [Hnil|(n & Hkids & Hin & HF)]).
  - exists [i], [i]. rewrite get_leaf_nodes_S. cbn [preorder]. rewrite Hq. simpl.
    rewrite Hnil. simpl.
    assert (Hch : childless objs i) by (unfold childless; rewrite Hq; simpl; f_equal; exact Hnil).
    split; [reflexivity|]. split; [reflexivity|].
    split; [rewrite list.filter_cons_True by exact Hch; reflexivity|].
    unfold boxes_of. simpl. rewrite Hq. simpl.
    split; [reflexivity|]. intros p. rewrite covering_cons. unfold covering. simpl.
    destruct (decide _); reflexivity.
  - destruct (children_tile fuel (seq n 4) (Quadrant.split_coords (Quadrant.coords q)))
      as (lss & nss & M1 & M2 & Hf & Hl & Hcov); [|exact HF|].
    { intros k c qk Hk Hqk <-. apply IH; [exact Hqk|].
      apply elem_of_seq in Hk. lia. }
    exists (concat lss), (i :: concat nss).
    rewrite (get_leaf_nodes_children fuel objs i q n (seq (S n) 3) Hq Hkids).
    rewrite (preorder_node fuel objs i q Hq), Hkids.
    change (n :: seq (S n) 3) with (seq n 4). rewrite M1, M2. simpl.
    split; [reflexivity|]. split; [reflexivity|].
    split.
    { rewrite list.filter_cons_False; [exact Hf|].
      unfold childless. rewrite Hq. simpl. rewrite Hkids. discriminate. }
    split; [exact Hl|].
    intros p. rewrite Hcov. apply split_coords_covering, Hbox.
Qed.
End tiling.

Section tree_claims.
Variable pow_quarter : Z -> Q.
Variable addr : nat -> Z.

Abbreviation steps := (QuadModel.steps pow_quarter addr).
Abbreviation init := (QuadModel.init pow_quarter addr).
Abbreviation Inv := (Inv pow_quarter addr).

(** C5: in every state a fresh scheduler reaches, [get_leaf_nodes] on
    the root returns (the recursion being given room for the objects of
    the store or more) the quadrants without children, in the order of
    the pre-order traversal from the root, which meets every quadrant of
    the store once; and every pixel of the image lies in the rectangle
    of exactly one of them, every other pixel in none. *)
Theorem collected_leaves_tile_the_image image scale k extra :
  exists m0 m, init image scale = Some m0 /\ steps k m0 = Some m /\
    let fuel := (length (QuadModel.objs m) + extra)%nat in
    exists leaves nodes,
      Quadrant.get_leaf_nodes fuel (QuadModel.objs m) (QuadModel.root m) = Some leaves /\
      preorder fuel (QuadModel.objs m) (QuadModel.root m) = Some nodes /\
      nodes ≡ₚ seq 0 (length (QuadModel.objs m)) /\
      leaves = filter (childless (QuadModel.objs m)) nodes /\
      length (boxes_of (QuadModel.objs m) leaves) = length leaves /\
      forall p,
        covering p (boxes_of (QuadModel.objs m) leaves) =
        if decide (in_box p (0, 0, Z.of_nat (fst (PIL.size image)),
                                   Z.of_nat (snd (PIL.size image))))
        then 1%nat else 0%nat.
Proof.
  destruct (reachable_inv pow_quarter addr image scale k)
    as (m0 & m & E0 & E & Hinv & _ & Hi & _).
  exists m0, m. split; [exact E0|]. split; [exact E|].
  intros fuel.
  destruct Hinv as [Hr Ht _ _ _ _ (rootq & Hroot & Hbox) (nodes0 & En0 & Pn0)].
  rewrite Hr. rewrite Hi in Hbox. unfold QuadImage.init in Hbox.
  destruct (PIL.size image) as [w h]. simpl in Hbox. simpl fst. simpl snd.
  rewrite <- Hbox.
  destruct (leaves_tile _ Ht fuel 0%nat rootq Hroot) as (leaves & nodes & El & En & Hl);
    [unfold fuel; lia|].
  apply (preorder_mono _ _ _ _ fuel) in En0; [|unfold fuel; lia].
  rewrite En in En0. injection En0 as <-.
  exists leaves, nodes. auto.
Qed.
End tree_claims.

Section scenario.
Variable pow_quarter : Z -> Q.
Variable addr : nat -> Z.

Abbreviation steps := (QuadModel.steps pow_quarter addr).
Abbreviation init := (QuadModel.init pow_quarter addr).
Abbreviation Inv := (Inv pow_quarter addr).

Lemma init_red_blue :
  exists m0 rootq,
    init red_blue 1 = Some m0 /\ Inv m0 /\
    Quadrant.init red_blue (0, 0, 8, 8) 0 = Some rootq /\
    QuadModel.objs m0 = [rootq] /\
    QuadModel.heap m0 = [(score pow_quarter rootq, 0%nat)] /\
    QuadModel.quad_im m0 = QuadImage.init red_blue /\
    (QuadModel.model_error m0 == 2 * (2080768 # 3))%Q /\
    (weighted_error rootq == 2080768 # 3)%Q.
Proof.
  destruct (init_inv pow_quarter addr red_blue 1)
    as (m0 & rootq & E0 & Hinv0 & Ho & _ & Hh & Hme & Hi & _ & (Er & _)).
  simpl in Er. exists m0, rootq.
  assert (Hw : (weighted_error rootq == 2080768 # 3)%Q).
  { vm_compute in Er. injection Er as <-. vm_compute. reflexivity. }
  split; [exact E0|]. split; [exact Hinv0|]. split; [exact Er|].
  split; [exact Ho|]. split; [exact Hh|]. split; [exact Hi|].
  split; [|exact Hw]. rewrite Hme, Hw. reflexivity.
Qed.

(** C1, on the code: right after construction the model error of the
    red and blue image is twice the [error * area] of the root, which
    is all the frontier holds. *)
Theorem fresh_model_error_counts_the_root_twice :
  exists m0 rootq,
    init red_blue 1 = Some m0 /\
    QuadModel.objs m0 !! QuadModel.root m0 = Some rootq /\
    (snd <$> QuadModel.heap m0) = [QuadModel.root m0] /\
    (frontier_error (QuadModel.objs m0) (QuadModel.heap m0)
     == Quadrant.error rootq * inject_Z (Quadrant.area rootq))%Q /\
    (Quadrant.error rootq * inject_Z (Quadrant.area rootq) == 2080768 # 3)%Q /\
    (QuadModel.model_error m0 == 4161536 # 3)%Q /\
    ~ (QuadModel.model_error m0
       == frontier_error (QuadModel.objs m0) (QuadModel.heap m0))%Q.
Proof.
  destruct init_red_blue as (m0 & rootq & E0 & Hinv & _ & Ho & Hh & _ & Hme & Hw).
  assert (Hf : (frontier_error (QuadModel.objs m0) (QuadModel.heap m0)
                == weighted_error rootq)%Q).
  { rewrite Ho, Hh. unfold frontier_error, error_at. simpl. ring. }
  exists m0, rootq. split; [exact E0|].
  split; [rewrite Ho, (inv_root _ _ _ Hinv); reflexivity|].
  split; [rewrite Hh, (inv_root _ _ _ Hinv); reflexivity|].
  split; [exact Hf|]. split; [exact Hw|].
  split; [rewrite Hme; reflexivity|].
  rewrite Hme, Hf, Hw. intros H. discriminate H.
Qed.

(** C2, on the code: one step on the red and blue image cuts the root
    at [x = 4] and [y = 4] into four children of error 0 and of the
    color of their block; the model error stays at the root's
    [error * area]. *)
Theorem red_blue_after_one_step :
  exists m0 m,
    init red_blue 1 = Some m0 /\ steps 1 m0 = Some m /\
    view <$> QuadModel.objs m =
      [((0, 0, 8, 8), (127, 0, 127), (32512 # 3)%Q, [1; 2; 3; 4]%nat);
       ((0, 0, 4, 4), (255, 0, 0), 0%Q, []);
       ((4, 0, 8, 4), (0, 0, 255), 0%Q, []);
       ((0, 4, 4, 8), (255, 0, 0), 0%Q, []);
       ((4, 4, 8, 8), (0, 0, 255), 0%Q, [])] /\
    (snd <$> QuadModel.heap m) ≡ₚ [1; 2; 3; 4]%nat /\
    (frontier_error (QuadModel.objs m) (QuadModel.heap m) == 0)%Q /\
    (QuadModel.model_error m == 2080768 # 3)%Q /\
    ~ (QuadModel.model_error m == 0)%Q.
Proof.
  destruct init_red_blue as (m0 & rootq & E0 & Hinv0 & Er & Ho & Hh & Hi & Hme & Hw).
  destruct (split_inv pow_quarter addr m0 Hinv0)
    as (m & E & Hinv & _ & _ & _ & s & quad & h' & Epop & Es & Herr & Hperm).
  { rewrite Hh. discriminate. }
  rewrite Hh in Epop. injection Epop as _ <- <-.
  rewrite Ho in Hperm. simpl in Hperm.
  rewrite Ho, Hi in Es. simpl in Es.
  vm_compute in Er. injection Er as <-.
  remember (QuadModel.objs m) as om eqn:Hom.
  vm_compute in Es. injection Es as Es. subst om.
  assert (Hme' : (QuadModel.model_error m == 2080768 # 3)%Q).
  { rewrite Herr, Hme, Ho, <- Es. vm_compute. reflexivity. }
  assert (Hfr : (frontier_error (QuadModel.objs m) (QuadModel.heap m) == 0)%Q).
  { pose proof (inv_error _ _ _ Hinv) as H. rewrite Hme' in H.
    assert (H0 : (error_at (QuadModel.objs m) 0 == 2080768 # 3)%Q)
      by (rewrite <- Es; vm_compute; reflexivity).
    lra. }
  exists m0, m. split; [exact E0|].
  split; [simpl; rewrite E; reflexivity|].
  split; [rewrite <- Es; vm_compute; reflexivity|].
  split.
  { exact Hperm. }
  split; [exact Hfr|]. split; [exact Hme'|].
  rewrite Hme'. intros H. discriminate H.
Qed.
End scenario.

(** ** Rendering *)

Lemma omap_length_le {A B} (f : A -> option B) (l : list A) :
  (length (omap f l) <= length l)%nat.
Proof.
  induction l as [|x l IH]; csimpl; [lia|].
  destruct (f x); csimpl; lia.
Qed.

Lemma boxes_of_cons objs i ls :
  boxes_of objs (i :: ls) =
  match objs !! i with
  | Some q => Quadrant.coords q :: boxes_of objs ls
  | None => boxes_of objs ls
  end.
Proof. unfold boxes_of. destruct (objs !! i) eqn:E; csimpl; rewrite E; reflexivity. Qed.

Lemma boxes_of_full objs ls :
  length (boxes_of objs ls) = length ls ->
  exists quads, mapM (fun quad => objs !! quad) ls = Some quads /\
                Quadrant.coords <$> quads = boxes_of objs ls.
Proof.
  induction ls as [|i ls IH]; intros Hlen.
  - exists []. split; reflexivity.
  - pose proof (omap_length_le (fun i => Quadrant.coords <$> objs !! i) ls) as Hle.
    fold (boxes_of objs ls) in Hle.
    rewrite boxes_of_cons in Hlen |- *.
    change (mapM ?g (i :: ls)) with (y ← g i; k ← mapM g ls; mret (y :: k)).
    destruct (objs !! i) as [q|] eqn:Hq.
    + rewrite !length_cons in Hlen.
      destruct IH as (quads & E & Hc); [lia|].
      exists (q :: quads). cbv beta. rewrite Hq, E. split; [reflexivity|].
      rewrite fmap_cons, Hc. reflexivity.
    + rewrite length_cons in Hlen. lia.
Qed.

Section rendering.
Variable pow_quarter : Z -> Q.
Variable addr : nat -> Z.

Abbreviation steps := (QuadModel.steps pow_quarter addr).
Abbreviation init := (QuadModel.init pow_quarter addr).

End rendering.

(** * Further properties *)

(** ** The range of the channel statistics *)

Lemma enumerate_snd {A} (l : list A) : snd <$> enumerate l = l.
Proof.
  unfold enumerate. rewrite fmap_imap. simpl.
  rewrite <- (list_fmap_id l) at 2. apply imap_const.
Qed.

Lemma enumerate_elem {A} (l : list A) i x :
  (i, x) ∈ enumerate l -> 0 <= i < Z.of_nat (length l).
Proof.
  unfold enumerate. intros H. apply elem_of_lookup_imap in H as (k & y & E & Hk).
  injection E as -> ->. apply lookup_lt_Some in Hk. lia.
Qed.

(** A weighted sum whose weights lie between [lo] and [hi]. *)
Lemma weighted_sum_bounds (w : Z * Z -> Z) (lo hi : Z) (l : list (Z * Z)) :
  (forall i c, (i, c) ∈ l -> 0 <= c /\ lo <= w (i, c) <= hi) ->
  lo * py_sum (snd <$> l) <= py_sum ((fun p => w p * snd p) <$> l)
    <= hi * py_sum (snd <$> l) /\ 0 <= py_sum (snd <$> l).
Proof.
  induction l as [|[i c] l IH]; intros H; [simpl; lia|].
  destruct (H i c ltac:(left)) as [Hc Hw].
  destruct IH as [IH1 IH2]; [intros; apply H; right; assumption|].
  rewrite !fmap_cons. change (py_sum (?x :: ?l)) with (x + py_sum l).
  cbn [snd].
  assert (lo * c <= w (i, c) * c <= hi * c) by nia.
  lia.
Qed.

Lemma floordiv_bounds (a t lo hi : Z) :
  0 < t -> lo * t <= a <= hi * t -> lo <= a / t <= hi.
Proof.
  intros Ht [H1 H2]. split.
  - apply Z.div_le_lower_bound; lia.
  - apply Z.div_le_upper_bound; lia.
Qed.

Lemma compute_avg_color_mse_bounds (hist : list Z) :
  Forall (fun c => 0 <= c) hist -> (length hist <= 256)%nat ->
  exists avg mse,
    Quadrant.compute_avg_color_mse hist = Some (avg, mse) /\
    0 <= avg <= 255 /\ 0 <= mse <= 65025.
Proof.
  intros Hnn Hlen. rewrite compute_avg_color_mse_eq. cbv zeta.
  set (S0 := py_sum hist).
  set (ttl := if S0 =? 0 then 1 else S0).
  set (S1 := py_sum ((fun '(i, c) => i * c) <$> enumerate hist)).
  set (avg := S1 / ttl).
  assert (Hpair : forall i c, (i, c) ∈ enumerate hist -> 0 <= c /\ 0 <= i <= 255).
  { intros i c Hin. pose proof (enumerate_elem _ _ _ Hin).
    split; [|lia].
    apply (list_elem_of_fmap_2 snd) in Hin. rewrite enumerate_snd in Hin.
    apply (proj1 (list.Forall_forall _ _) Hnn _ Hin). }
  destruct (weighted_sum_bounds (fun p => fst p) 0 255 (enumerate hist)) as [B1 B0].
  { intros i c Hin. apply Hpair in Hin. simpl. lia. }
  rewrite enumerate_snd in B1, B0. fold S0 in B1, B0.
  assert (E1 : (fun p : Z * Z => fst p * snd p) <$> enumerate hist
               = (fun '(i, c) => i * c) <$> enumerate hist).
  { apply list_fmap_ext. intros ? [i c] _. reflexivity. }
  rewrite E1 in B1. fold S1 in B1.
  assert (Ht : 0 < ttl /\ (S0 = 0 \/ ttl = S0)).
  { unfold ttl. destruct (Z.eqb_spec S0 0); lia. }
  assert (Havg : 0 <= avg <= 255).
  { apply floordiv_bounds; [lia|]. destruct Ht as [? [->| ->]]; lia. }
  eexists _, _. split; [reflexivity|]. split; [exact Havg|].
  destruct (weighted_sum_bounds (fun p => (avg - fst p) ^ 2) 0 65025 (enumerate hist))
    as [B2 _].
  { intros i c Hin. apply Hpair in Hin. simpl. nia. }
  rewrite enumerate_snd in B2. fold S0 in B2.
  assert (E2 : (fun p : Z * Z => (avg - fst p) ^ 2 * snd p) <$> enumerate hist
               = (fun '(i, c) => (avg - i) ^ 2 * c) <$> enumerate hist).
  { apply list_fmap_ext. intros ? [i c] _. reflexivity. }
  rewrite E2 in B2.
  apply floordiv_bounds; [lia|]. destruct Ht as [? [E| ->]]; [rewrite E in *|]; lia.
Qed.

Lemma length_band_hist c px : length (band_hist c px) = 256%nat.
Proof. unfold band_hist. rewrite length_fmap. reflexivity. Qed.

Lemma histogram_bands px :
  take 256 (PIL.histogram px) = band_hist 0 px /\
  take 256 (drop 256 (PIL.histogram px)) = band_hist 1 px /\
  drop 512 (PIL.histogram px) = band_hist 2 px.
Proof.
  assert (E : PIL.histogram px
              = band_hist 0 px ++ band_hist 1 px ++ band_hist 2 px ++ []) by reflexivity.
  rewrite E, app_nil_r. clear E.
  pose proof (length_band_hist 0 px) as L0.
  pose proof (length_band_hist 1 px) as L1.
  split; [|split].
  - apply take_app_length'. symmetry. exact L0.
  - rewrite drop_app_length' by (symmetry; exact L0).
    apply take_app_length'. symmetry. exact L1.
  - change 512%nat with (256 + 256)%nat. rewrite <- drop_drop.
    rewrite drop_app_length' by (symmetry; exact L0).
    apply drop_app_length'. symmetry. exact L1.
Qed.

Lemma band_hist_nonneg c px : Forall (fun n => 0 <= n) (band_hist c px).
Proof.
  unfold band_hist. apply Forall_fmap, list.Forall_forall. intros i _.
  unfold PIL.count. simpl. lia.
Qed.

(** ** Regions of one color *)

Lemma count_uniform c px v i :
  Forall (fun p => PIL.band c p = v) px ->
  PIL.count c px i = if i =? v then Z.of_nat (length px) else 0.
Proof.
  intros H. unfold PIL.count. induction H as [|p px Hp H IH]; [destruct (i =? v); reflexivity|].
  rewrite list.filter_cons. destruct (decide (PIL.band c p = i)) as [E|E].
  - assert (Hiv : i = v) by congruence. rewrite Hiv in *. clear E Hiv.
    rewrite Z.eqb_refl in *. cbn [length]. rewrite Nat2Z.inj_succ, IH. lia.
  - rewrite IH. destruct (Z.eqb_spec i v); [congruence|reflexivity].
Qed.

Lemma enumerate_fmap_seqZ {A} (f : Z -> A) k :
  enumerate (f <$> seqZ 0 k) = (fun i => (i, f i)) <$> seqZ 0 k.
Proof.
  unfold enumerate. apply list_eq. intros i.
  rewrite list_lookup_imap, !list_lookup_fmap.
  destruct (seqZ 0 k !! i) as [x|] eqn:E; [|reflexivity].
  apply lookup_seqZ in E as [-> _]. simpl. rewrite Z.add_0_l. reflexivity.
Qed.

Lemma py_sum_indicator (w : Z -> Z) v n (l : list Z) :
  NoDup l ->
  py_sum ((fun i => w i * (if i =? v then n else 0)) <$> l)
  = if bool_decide (v ∈ l) then w v * n else 0.
Proof.
  induction 1 as [|i l Hi Hl IH]; [reflexivity|].
  rewrite fmap_cons. change (py_sum (?x :: ?l)) with (x + py_sum l). rewrite IH.
  destruct (Z.eqb_spec i v) as [->|Hne].
  - rewrite bool_decide_eq_false_2 by assumption.
    rewrite bool_decide_eq_true_2 by (apply elem_of_cons; left; reflexivity). lia.
  - destruct (decide (v ∈ l)) as [Hin|Hin].
    + rewrite (bool_decide_eq_true_2 (v ∈ i :: l)) by (apply elem_of_cons; right; assumption).
      rewrite bool_decide_eq_true_2 by assumption. lia.
    + rewrite (bool_decide_eq_false_2 (v ∈ l)) by assumption.
      rewrite (bool_decide_eq_false_2 (v ∈ i :: l)); [lia|].
      intros [?|?]%elem_of_cons; [congruence|contradiction].
Qed.

(** The statistics of a band in which every pixel has the value [v]. *)
Lemma compute_avg_color_mse_uniform c px v :
  px <> [] -> 0 <= v <= 255 ->
  Forall (fun p => PIL.band c p = v) px ->
  Quadrant.compute_avg_color_mse (band_hist c px) = Some (v, 0).
Proof.
  intros Hne Hv Hu.
  set (n := Z.of_nat (length px)).
  assert (Hn : 0 < n) by (destruct px; [congruence|unfold n; simpl; lia]).
  assert (Eh : band_hist c px = (fun i => if i =? v then n else 0) <$> seqZ 0 256).
  { unfold band_hist, py_range. apply list_fmap_ext. intros _ i _.
    apply count_uniform, Hu. }
  assert (Hin : v ∈ seqZ 0 256) by (apply elem_of_seqZ; lia).
  assert (Es : forall w : Z -> Z,
             py_sum ((fun '(i, num_pix) => w i * num_pix) <$> enumerate (band_hist c px))
             = w v * n).
  { intros w. rewrite Eh, enumerate_fmap_seqZ, <- list_fmap_compose.
    etransitivity; [|etransitivity; [apply (py_sum_indicator w v n (seqZ 0 256)), NoDup_seqZ|]].
    - reflexivity.
    - rewrite bool_decide_eq_true_2 by assumption. reflexivity. }
  assert (Et : py_sum (band_hist c px) = n).
  { rewrite <- (enumerate_snd (band_hist c px)).
    etransitivity; [|etransitivity; [apply (Es (fun _ => 1))|lia]].
    f_equal. apply list_fmap_ext. intros _ [i x] _. simpl. lia. }
  rewrite compute_avg_color_mse_eq. cbv zeta. rewrite Et.
  destruct (Z.eqb_spec n 0) as [?|_]; [lia|].
  rewrite (Es (fun i => i)). rewrite Z.div_mul by lia.
  rewrite (Es (fun i => (v - i) ^ 2)). rewrite Z.sub_diag. simpl. reflexivity.
Qed.

Lemma crop_nonempty im l t r b : l < r -> t < b -> PIL.crop im (l, t, r, b) <> [].
Proof.
  intros Hx Hy. unfold PIL.crop, py_range.
  intros E. apply (f_equal length) in E. revert E.
  rewrite (seqZ_cons t) by lia. rewrite bind_cons, (seqZ_cons l) by lia.
  rewrite bind_cons. simpl. discriminate.
Qed.

Lemma crop_elem im l t r b p :
  p ∈ PIL.crop im (l, t, r, b) ->
  exists x y, l <= x < r /\ t <= y < b /\ p = PIL.getpixel im x y.
Proof.
  unfold PIL.crop, py_range.
  intros (y & (x & ->%list_elem_of_singleton & Hx%elem_of_seqZ)%list_elem_of_bind
            & Hy%elem_of_seqZ)%list_elem_of_bind.
  exists x, y. repeat split; lia.
Qed.

(** ** The store of the scheduler *)

Lemma set_children_id q : Quadrant.set_children q (Quadrant.children q) = q.
Proof. destruct q. reflexivity. Qed.

Lemma fresh_constructed im d c q : fresh_quadrant im d c q -> constructed im q.
Proof.
  intros (E & Hc & Hd & _ & Hk). exists q. rewrite Hc, Hd. split; [exact E|].
  symmetry. apply set_children_id.
Qed.

Lemma constructed_set_children im q kids :
  constructed im q -> constructed im (Quadrant.set_children q kids).
Proof.
  intros (q0 & E & Hq). exists q0. split; [exact E|].
  rewrite Hq at 1. reflexivity.
Qed.

Lemma split_coords_inside W H c :
  inside W H c -> Forall (inside W H) (Quadrant.split_coords c).
Proof.
  destruct c as [[[l t] r] b]. intros [(Hl & Hh & Hr) (Ht & Hv & Hb)].
  pose proof (midpoint_bounds l r Hh). pose proof (midpoint_bounds t b Hv).
  unfold Quadrant.split_coords, inside. repeat constructor; lia.
Qed.

Lemma fresh_inside W H im d cs ks :
  Forall (inside W H) cs -> Forall2 (fresh_quadrant im d) cs ks ->
  Forall (fun q => inside W H (Quadrant.coords q)) ks.
Proof.
  intros Hcs Hf. induction Hf as [|c k cs ks (_ & Hc & _) _ IH]; constructor.
  - rewrite Hc. apply list.Forall_cons in Hcs as [? _]. assumption.
  - apply IH. apply list.Forall_cons in Hcs as [_ ?]. assumption.
Qed.

Lemma Forall_insert_app {A} (P : A -> Prop) (l new : list A) i x :
  Forall P l -> Forall P new -> P x -> Forall P (<[i := x]> (l ++ new)).
Proof.
  intros Hl Hn Hx. apply Forall_insert; [|exact Hx].
  apply Forall_app. split; assumption.
Qed.

Section store_steps.
Variable pow_quarter : Z -> Q.
Variable addr : nat -> Z.

Abbreviation split := (QuadModel.split pow_quarter addr).
Abbreviation steps := (QuadModel.steps pow_quarter addr).
Abbreviation init := (QuadModel.init pow_quarter addr).
Abbreviation tuple_lt := (QuadModel.tuple_lt addr).
Abbreviation Inv := (Inv pow_quarter addr).
Abbreviation score := (score pow_quarter).

(** One step, and what it does to the store. *)
Lemma split_store m :
  Inv m -> Inv_store m -> QuadModel.heap m <> [] ->
  exists m', split m = Some m' /\ Inv m' /\ Inv_store m' /\
    length (QuadModel.objs m') = (length (QuadModel.objs m) + 4)%nat /\
    length (QuadModel.heap m') = (length (QuadModel.heap m) + 3)%nat /\
    QuadModel.quad_im m' = QuadModel.quad_im m /\
    QuadModel.scale m' = QuadModel.scale m.
Proof.
  intros Hinv [Hfr Hcon Hins] Hne.
  destruct (split_inv pow_quarter addr m Hinv Hne)
    as (m' & E & Hinv' & Hl & Hi & Hs & s & quad & h' & Epop & Esplit & _ & Hp').
  destruct (heappop_perm tuple_lt (QuadModel.heap m) Hne) as (x & h'' & Epop' & P & _).
  rewrite Epop in Epop'. injection Epop' as <- <-.
  assert (Hin : (s, quad) ∈ QuadModel.heap m) by (rewrite P; left).
  destruct (proj1 (list.Forall_forall _ _) (inv_entries _ _ _ Hinv) _ Hin)
    as (q & Hq & Hc & _). simpl in Hq.
  pose proof (inv_nodup _ _ _ Hinv) as Hnd. rewrite P in Hnd. simpl in Hnd.
  apply list.NoDup_cons in Hnd as [Hnot _].
  destruct (split_eq (QuadImage.im (QuadModel.quad_im m)) _ _ _ Hq)
    as (t_l & t_r & b_l & b_r & Es & Hf).
  cbv zeta in Es. rewrite Esplit in Es. injection Es as Eo.
  set (n := length (QuadModel.objs m)) in *.
  set (kids := [n; S n; S (S n); S (S (S n))]) in *.
  set (new := [t_l; t_r; b_l; b_r]) in *.
  assert (Hqn : (quad < n)%nat) by (eapply lookup_lt_Some, Hq).
  assert (Hnewc : Forall (fun k => Quadrant.children k = []) new).
  { clear -Hf. induction Hf as [|c k cs ks (_ & _ & _ & _ & Hk) _ IH]; constructor; assumption. }
  exists m'. split; [exact E|]. split; [exact Hinv'|].
  split; [|split; [rewrite Eo, length_insert, length_app; reflexivity|auto]].
  split.
  - intros i. rewrite Hp', elem_of_app, elem_of_seq. fold n.
    assert (Hold : i ∈ h'.*2 <-> i <> quad /\ childless (QuadModel.objs m) i).
    { rewrite <- Hfr, P. simpl. rewrite elem_of_cons. split.
      - intros Hi'. split; [intros ->; contradiction|right; exact Hi'].
      - intros [Hneq [?|?]]; [contradiction|assumption]. }
    rewrite Hold. unfold childless. rewrite Eo.
    destruct (decide (i = quad)) as [->|Hneq].
    { rewrite (store_lookup_quad _ _ _ new kids Hq). simpl.
      split; [intros [?|[? _]]; [lia|contradiction]|discriminate]. }
    destruct (decide (i < n)%nat) as [Hlt|Hge].
    { rewrite (store_lookup_old _ _ q new kids i Hneq Hlt).
      split; [intros [?|[_ ?]]; [lia|assumption]|intros ?; right; auto]. }
    replace i with (n + (i - n))%nat by lia.
    rewrite (store_lookup_new _ _ _ new kids Hq).
    destruct (decide (i - n < 4)%nat) as [Hk|Hk].
    + destruct (lookup_lt_is_Some_2 new (i - n)%nat Hk) as [qk Hqk].
      rewrite Hqk. simpl.
      rewrite (proj1 (list.Forall_forall _ _) Hnewc qk) by (eapply list_elem_of_lookup_2, Hqk).
      split; [reflexivity|intros _; left; lia].
    + rewrite (lookup_ge_None_2 new) by (simpl; lia). simpl.
      split; [|discriminate].
      intros [?|[_ Hch]]; [lia|].
      rewrite lookup_ge_None_2 in Hch by (fold n; lia). discriminate.
  - rewrite Hi, Eo. apply Forall_insert_app; [exact Hcon| |].
    + clear -Hf. induction Hf as [|c k cs ks Hk _ IH]; constructor; [|exact IH].
      eapply fresh_constructed, Hk.
    + apply constructed_set_children.
      apply (proj1 (list.Forall_forall _ _) Hcon q), list_elem_of_lookup_2 with quad, Hq.
  - rewrite Hi, Eo.
    pose proof (proj1 (list.Forall_forall _ _) Hins q
                  (list_elem_of_lookup_2 _ _ _ Hq)) as Hqi.
    apply Forall_insert_app; [exact Hins| |exact Hqi].
    eapply fresh_inside; [apply split_coords_inside, Hqi|exact Hf].
Qed.

Lemma steps_store k : forall m,
  Inv m -> Inv_store m -> QuadModel.heap m <> [] ->
  exists m', steps k m = Some m' /\ Inv m' /\ Inv_store m' /\
    length (QuadModel.objs m') = (length (QuadModel.objs m) + 4 * k)%nat /\
    length (QuadModel.heap m') = (length (QuadModel.heap m) + 3 * k)%nat /\
    QuadModel.quad_im m' = QuadModel.quad_im m /\
    QuadModel.scale m' = QuadModel.scale m.
Proof.
  induction k as [|k IH]; intros m Hinv Hst Hne.
  - exists m. split; [reflexivity|]. split; [exact Hinv|]. split; [exact Hst|].
    split; [lia|]. split; [lia|]. split; reflexivity.
  - destruct (split_store m Hinv Hst Hne) as (m1 & E1 & Hinv1 & Hst1 & Ho1 & Hl1 & Hi1 & Hs1).
    destruct (IH m1 Hinv1 Hst1) as (m' & E & Hinv' & Hst' & Ho & Hl & Hi & Hs).
    { intros Hnil. rewrite Hnil in Hl1. simpl in Hl1. lia. }
    exists m'. simpl. rewrite E1. simpl.
    split; [exact E|]. split; [exact Hinv'|]. split; [exact Hst'|].
    split; [lia|]. split; [lia|]. split; congruence.
Qed.

Lemma init_store image scale :
  exists m, init image scale = Some m /\ Inv m /\ Inv_store m /\
    length (QuadModel.objs m) = 1%nat /\ length (QuadModel.heap m) = 1%nat /\
    QuadModel.quad_im m = QuadImage.init image /\ QuadModel.scale m = scale.
Proof.
  destruct (init_inv pow_quarter addr image scale)
    as (m & rootq & E & Hinv & Ho & _ & Hh & _ & Hi & Hs & Hfr).
  exists m. split; [exact E|]. split; [exact Hinv|].
  split; [|rewrite Ho, Hh; auto].
  pose proof Hfr as (_ & Hc & _ & _ & Hk).
  split.
  - intros i. rewrite Hh, Ho. unfold childless. simpl.
    rewrite list_elem_of_singleton. destruct i as [|i]; simpl.
    + rewrite Hk. split; reflexivity.
    + split; discriminate.
  - rewrite Ho, Hi. repeat constructor. unfold QuadImage.init.
    destruct (PIL.size image). simpl. eapply fresh_constructed, Hfr.
  - rewrite Ho, Hi. repeat constructor. rewrite Hc. unfold QuadImage.init.
    destruct (PIL.size image). simpl. lia.
Qed.

(** The states a fresh scheduler reaches, and their stores. *)
Lemma reachable_store image scale k :
  exists m0 m, init image scale = Some m0 /\ steps k m0 = Some m /\
    Inv m /\ Inv_store m /\
    length (QuadModel.objs m) = (1 + 4 * k)%nat /\
    length (QuadModel.heap m) = (1 + 3 * k)%nat /\
    QuadModel.quad_im m = QuadImage.init image /\ QuadModel.scale m = scale.
Proof.
  destruct (init_store image scale) as (m0 & E0 & Hinv0 & Hst0 & Ho0 & Hh0 & Hi0 & Hs0).
  destruct (steps_store k m0 Hinv0 Hst0) as (m & E & Hinv & Hst & Ho & Hh & Hi & Hs).
  { intros Hnil. rewrite Hnil in Hh0. discriminate. }
  exists m0, m. split; [exact E0|]. split; [exact E|]. split; [exact Hinv|].
  split; [exact Hst|]. split; [lia|]. split; [lia|]. split; congruence.
Qed.
End store_steps.

(** ** Areas *)

Lemma py_sum_app l1 l2 : py_sum (l1 ++ l2) = py_sum l1 + py_sum l2.
Proof. induction l1 as [|x l1 IH]; simpl; [reflexivity|]. rewrite IH. lia. Qed.

Lemma py_sum_perm l1 l2 : l1 ≡ₚ l2 -> py_sum l1 = py_sum l2.
Proof. induction 1; simpl; lia. Qed.

Lemma split_coords_area c :
  py_sum (Quadrant.compute_area <$> Quadrant.split_coords c) = Quadrant.compute_area c.
Proof. destruct c as [[[l t] r] b]. simpl. ring. Qed.

Section leaf_areas.
Variable objs : list Quadrant.t.
Hypothesis Htree : tree_ok objs.

Lemma children_area fuel ks cs :
  (forall k qk, k ∈ ks -> objs !! k = Some qk ->
     exists ls, Quadrant.get_leaf_nodes fuel objs k = Some ls /\
       py_sum (area_at objs <$> ls) = Quadrant.area qk) ->
  Forall2 (fun k c => exists qk, objs !! k = Some qk /\ Quadrant.coords qk = c) ks cs ->
  exists lss,
    mapM (Quadrant.get_leaf_nodes fuel objs) ks = Some lss /\
    py_sum (area_at objs <$> concat lss) = py_sum (Quadrant.compute_area <$> cs).
Proof.
  intros IH HF. induction HF as [|k c ks cs (qk & Hqk & Hc) _ IHF].
  - exists []. split; reflexivity.
  - destruct (IH k qk ltac:(left) Hqk) as (ls & E1 & Ha).
    destruct IHF as (lss & M1 & Ha').
    { intros k' qk' Hin. apply IH. right. exact Hin. }
    exists (ls :: lss). simpl. rewrite E1, M1. simpl. split; [reflexivity|].
    rewrite fmap_app, py_sum_app, Ha, Ha'.
    destruct (Htree k qk Hqk) as (_ & -> & _). rewrite Hc. reflexivity.
Qed.

(** The areas of the leaves under a quadrant add up to its area. *)
Lemma leaves_area fuel : forall i q,
  objs !! i = Some q -> (length objs - i <= fuel)%nat ->
  exists ls, Quadrant.get_leaf_nodes fuel objs i = Some ls /\
    py_sum (area_at objs <$> ls) = Quadrant.area q.
Proof.
  induction fuel as [|fuel IH]; intros i q Hq Hfuel.
  { apply lookup_lt_Some in Hq. lia. }
  destruct (Htree i q Hq) as (Hbox & Harea & [Hnil|(n & Hkids & Hin & HF)]).
  - exists [i]. rewrite get_leaf_nodes_S, Hq. simpl. rewrite Hnil.
    split; [reflexivity|]. unfold area_at. rewrite Hq. simpl. lia.
  - destruct (children_area fuel (seq n 4) (Quadrant.split_coords (Quadrant.coords q)))
      as (lss & M1 & Ha); [|exact HF|].
    { intros k qk Hk Hqk. apply IH; [exact Hqk|]. apply elem_of_seq in Hk. lia. }
    exists (concat lss).
    rewrite (get_leaf_nodes_children fuel objs i q n (seq (S n) 3) Hq Hkids).
    change (n :: seq (S n) 3) with (seq n 4). rewrite M1. simpl.
    split; [reflexivity|]. rewrite Ha, split_coords_area. symmetry. exact Harea.
Qed.
End leaf_areas.

Lemma Qsum_bounds (f : nat -> Q) (g : nat -> Z) (c : Q) (l : list nat) :
  (forall i, i ∈ l -> (0 <= f i <= c * inject_Z (g i))%Q) ->
  (0 <= Qsum (f <$> l) <= c * inject_Z (py_sum (g <$> l)))%Q.
Proof.
  induction l as [|i l IH]; intros H.
  - simpl. change (inject_Z 0) with 0%Q. lra.
  - destruct (H i ltac:(left)) as [H1 H2].
    destruct IH as [IH1 IH2]; [intros; apply H; right; assumption|].
    rewrite !fmap_cons. simpl. rewrite inject_Z_plus. split; lra.
Qed.

Section reachable.
Variable pow_quarter : Z -> Q.
Variable addr : nat -> Z.

Abbreviation steps := (QuadModel.steps pow_quarter addr).
Abbreviation init := (QuadModel.init pow_quarter addr).
Abbreviation Inv := (Inv pow_quarter addr).

(** The leaves [get_leaf_nodes] collects, in a store that satisfies the
    invariants: the quadrants of the heap. *)
Lemma leaves_frontier m fuel :
  Inv m -> Inv_store m -> (length (QuadModel.objs m) <= fuel)%nat ->
  exists leaves,
    Quadrant.get_leaf_nodes fuel (QuadModel.objs m) (QuadModel.root m) = Some leaves /\
    leaves ≡ₚ (QuadModel.heap m).*2 /\
    py_sum (area_at (QuadModel.objs m) <$> leaves)
      = QuadImage.width (QuadModel.quad_im m) * QuadImage.height (QuadModel.quad_im m).
Proof.
  intros [Hr Ht _ Hnd _ _ (rootq & Hroot & Hbox) (nodes0 & En0 & Pn0)] [Hfr _ _] Hfuel.
  rewrite Hr.
  destruct (leaves_tile _ Ht fuel 0%nat rootq Hroot) as (leaves & nodes & El & En & Hl & _);
    [lia|].
  apply (preorder_mono _ _ _ _ fuel) in En0; [|lia].
  rewrite En in En0. injection En0 as <-.
  exists leaves. split; [exact El|]. split.
  - apply NoDup_Permutation; [|exact Hnd|].
    + rewrite Hl. apply list.NoDup_filter. rewrite Pn0. apply NoDup_seq.
    + intros i. rewrite Hfr, Hl, list_elem_of_filter, Pn0, elem_of_seq.
      split; [tauto|]. intros Hc. split; [exact Hc|].
      unfold childless in Hc. destruct (QuadModel.objs m !! i) eqn:Ei; [|discriminate].
      apply lookup_lt_Some in Ei. lia.
  - destruct (leaves_area _ Ht fuel 0%nat rootq Hroot) as (ls & El' & Ha); [lia|].
    rewrite El in El'. injection El' as <-. rewrite Ha.
    destruct (Ht 0%nat rootq Hroot) as (_ & -> & _). rewrite Hbox. simpl. ring.
Qed.
End reachable.

(** ** Quadrants *)

(** The color and the error [compute_color] makes of the histogram of a
    region. *)
Lemma compute_color_bounds px :
  exists r g b e,
    Quadrant.compute_color (PIL.histogram px) = Some (r, g, b, e) /\
    (0 <= r <= 255) /\ (0 <= g <= 255) /\ (0 <= b <= 255) /\
    (0 <= e <= 65025)%Q.
Proof.
  unfold Quadrant.compute_color.
  destruct (histogram_bands px) as (-> & -> & ->).
  destruct (compute_avg_color_mse_bounds (band_hist 0 px))
    as (r & re & -> & Hr & Hre);
    [apply band_hist_nonneg|rewrite length_band_hist; lia|].
  destruct (compute_avg_color_mse_bounds (band_hist 1 px))
    as (g & ge & -> & Hg & Hge);
    [apply band_hist_nonneg|rewrite length_band_hist; lia|].
  destruct (compute_avg_color_mse_bounds (band_hist 2 px))
    as (b & be & -> & Hb & Hbe);
    [apply band_hist_nonneg|rewrite length_band_hist; lia|].
  simpl. exists r, g, b. eexists. split; [reflexivity|].
  do 3 (split; [assumption|]).
  assert (H0 : 0 <= re + ge + be <= 3 * 65025) by lia.
  destruct H0 as [H1 H2].
  rewrite Zle_Qle in H1, H2. rewrite inject_Z_mult in H2.
  change (inject_Z 0) with 0%Q in H1. change (inject_Z 3) with 3%Q in H2.
  change (inject_Z 65025) with 65025%Q in H2.
  split.
  - apply Qle_shift_div_l; [reflexivity|]. lra.
  - apply Qle_shift_div_r; [reflexivity|]. lra.
Qed.

Lemma init_error_range im c d q :
  Quadrant.init im c d = Some q -> (0 <= Quadrant.error q <= 65025)%Q.
Proof.
  unfold Quadrant.init.
  destruct (compute_color_bounds (PIL.crop im c)) as (r & g & b & e & -> & _ & _ & _ & He).
  simpl. intros [= <-]. exact He.
Qed.

(** X1: the constructor never fails, whatever the rectangle; the
    quadrant it makes has the rectangle and depth it was given, the area
    and leaf flag computed from the rectangle and no children; the
    components of its color lie in 0..255 and its error in 0..65025. *)
Theorem constructor_color_and_error_in_range im c d :
  exists q, Quadrant.init im c d = Some q /\
    Quadrant.coords q = c /\ Quadrant.depth q = d /\
    Quadrant.area q = Quadrant.compute_area c /\
    Quadrant.leaf q = Quadrant.is_leaf c /\
    Quadrant.children q = [] /\
    (let '(r, g, b) := Quadrant.color q in
     (0 <= r <= 255) /\ (0 <= g <= 255) /\ (0 <= b <= 255)) /\
    (0 <= Quadrant.error q <= 65025)%Q.
Proof.
  unfold Quadrant.init.
  destruct (compute_color_bounds (PIL.crop im c))
    as (r & g & b & e & -> & Hr & Hg & Hb & He).
  simpl. eexists. split; [reflexivity|]. simpl.
  do 5 (split; [reflexivity|]). split; [auto|exact He].
Qed.

(** X2: a quadrant over a non-empty region whose pixels all have one
    color has that color, and its error is 0. *)
Theorem uniform_region_has_its_color_and_no_error im l t r b d cr cg cb :
  l < r -> t < b ->
  0 <= cr <= 255 -> 0 <= cg <= 255 -> 0 <= cb <= 255 ->
  (forall x y, l <= x < r -> t <= y < b -> PIL.getpixel im x y = (cr, cg, cb)) ->
  exists q, Quadrant.init im (l, t, r, b) d = Some q /\
    Quadrant.color q = (cr, cg, cb) /\ (Quadrant.error q == 0)%Q.
Proof.
  intros Hx Hy Hr Hg Hb Hu.
  pose proof (crop_nonempty im l t r b Hx Hy) as Hne.
  assert (Hall : forall c v, v = PIL.band c (cr, cg, cb) ->
            Forall (fun p => PIL.band c p = v) (PIL.crop im (l, t, r, b))).
  { intros c v ->. apply list.Forall_forall. intros p (x & y & Hpx & Hpy & ->)%crop_elem.
    rewrite Hu by assumption. reflexivity. }
  unfold Quadrant.init, Quadrant.compute_color.
  destruct (histogram_bands (PIL.crop im (l, t, r, b))) as (-> & -> & ->).
  rewrite (compute_avg_color_mse_uniform 0 _ cr Hne Hr (Hall 0%nat cr eq_refl)).
  rewrite (compute_avg_color_mse_uniform 1 _ cg Hne Hg (Hall 1%nat cg eq_refl)).
  rewrite (compute_avg_color_mse_uniform 2 _ cb Hne Hb (Hall 2%nat cb eq_refl)).
  simpl. eexists. split; [reflexivity|]. split; reflexivity.
Qed.

(** A quadrant over no pixel: black, without error. *)
Lemma init_empty im l t r b d :
  r = l \/ b = t ->
  exists q, Quadrant.init im (l, t, r, b) d = Some q /\
    Quadrant.color q = (0, 0, 0) /\ (Quadrant.error q == 0)%Q /\
    Quadrant.area q = 0.
Proof.
  intros H. unfold Quadrant.init. rewrite (crop_empty im l t r b H).
  change (Quadrant.compute_color (PIL.histogram []))
    with (Some ((0, 0, 0), (inject_Z 0 / 3)%Q)) .
  simpl. eexists. split; [reflexivity|]. simpl.
  split; [reflexivity|]. split; [reflexivity|]. destruct H as [->| ->]; lia.
Qed.

(** X3: [split] does not look at the leaf flag.  A quadrant at most one
    pixel wide, which [is_leaf] flags, is split like any other: its cut
    falls on its left edge, so that its top left and bottom left
    children hold no pixel; they have area 0, are black and have error
    0. *)
Theorem split_of_a_thin_quadrant im objs self q l t r b :
  objs !! self = Some q -> Quadrant.coords q = (l, t, r, b) ->
  0 <= r - l <= 1 ->
  Quadrant.is_leaf (Quadrant.coords q) = true /\
  exists objs' t_l t_r b_l b_r,
    Quadrant.split im objs self = Some (seq (length objs) 4, objs') /\
    objs' !! length objs = Some t_l /\
    objs' !! S (length objs) = Some t_r /\
    objs' !! S (S (length objs)) = Some b_l /\
    objs' !! S (S (S (length objs))) = Some b_r /\
    Quadrant.coords t_l = (l, t, l, t + (b - t) / 2) /\
    Quadrant.coords b_l = (l, t + (b - t) / 2, l, b) /\
    Quadrant.coords t_r = (l, t, r, t + (b - t) / 2) /\
    Quadrant.coords b_r = (l, t + (b - t) / 2, r, b) /\
    Forall (fun k => Quadrant.area k = 0 /\ Quadrant.color k = (0, 0, 0) /\
                     (Quadrant.error k == 0)%Q) [t_l; b_l].
Proof.
  intros Hq Hc Hw. split.
  { rewrite Hc. unfold Quadrant.is_leaf, Quadrant.MIN_LEAF_SIZE.
    rewrite (proj2 (Z.ltb_lt (r - l) 4)) by lia. reflexivity. }
  destruct (split_eq im objs self q Hq) as (t_l & t_r & b_l & b_r & Es & Hf).
  cbv zeta in Es. rewrite Hc in Hf. unfold Quadrant.split_coords in Hf.
  assert (Hh : l + (r - l) / 2 = l) by (Z.div_mod_to_equations; lia).
  rewrite Hh in Hf.
  apply Forall2_cons_1 in Hf as [Htl Hf]. apply Forall2_cons_1 in Hf as [Htr Hf].
  apply Forall2_cons_1 in Hf as [Hbl Hf]. apply Forall2_cons_1 in Hf as [Hbr _].
  eexists. exists t_l, t_r, b_l, b_r. split; [exact Es|].
  pose proof (store_lookup_new objs self q [t_l; t_r; b_l; b_r]
                [length objs; S (length objs); S (S (length objs)); S (S (S (length objs)))]
                Hq) as Hnew.
  pose proof (Hnew 0%nat) as H0. pose proof (Hnew 1%nat) as H1.
  pose proof (Hnew 2%nat) as H2. pose proof (Hnew 3%nat) as H3.
  replace (length objs + 0)%nat with (length objs) in H0 by lia.
  replace (length objs + 1)%nat with (S (length objs)) in H1 by lia.
  replace (length objs + 2)%nat with (S (S (length objs))) in H2 by lia.
  replace (length objs + 3)%nat with (S (S (S (length objs)))) in H3 by lia.
  split; [exact H0|]. split; [exact H1|]. split; [exact H2|]. split; [exact H3|].
  clear Hnew H0 H1 H2 H3.
  split; [apply Htl|]. split; [apply Hbl|]. split; [apply Htr|]. split; [apply Hbr|].
  destruct Htl as (Etl & _). destruct Hbl as (Ebl & _).
  destruct (init_empty im l t l (t + (b - t) / 2) (Quadrant.depth q + 1))
    as (q1 & E1 & Hq1); [left; reflexivity|].
  destruct (init_empty im l (t + (b - t) / 2) l b (Quadrant.depth q + 1))
    as (q2 & E2 & Hq2); [left; reflexivity|].
  rewrite Etl in E1. injection E1 as <-. rewrite Ebl in E2. injection E2 as <-.
  repeat constructor; tauto.
Qed.


Section reachable_states.
Variable pow_quarter : Z -> Q.
Variable addr : nat -> Z.

Abbreviation steps := (QuadModel.steps pow_quarter addr).
Abbreviation init := (QuadModel.init pow_quarter addr).
Abbreviation Inv := (Inv pow_quarter addr).

(** X4: in every state a fresh scheduler reaches, the leaves
    [get_leaf_nodes] collects from the root are the quadrants of the
    heap, each once: what [render] draws is the frontier. *)
Theorem frontier_is_the_leaves image scale k extra :
  exists m0 m, init image scale = Some m0 /\ steps k m0 = Some m /\
    let fuel := (length (QuadModel.objs m) + extra)%nat in
    exists leaves,
      Quadrant.get_leaf_nodes fuel (QuadModel.objs m) (QuadModel.root m) = Some leaves /\
      leaves ≡ₚ (QuadModel.heap m).*2.
Proof.
  destruct (reachable_store pow_quarter addr image scale k)
    as (m0 & m & E0 & E & Hinv & Hst & _).
  exists m0, m. split; [exact E0|]. split; [exact E|]. intros fuel.
  destruct (leaves_frontier pow_quarter addr m fuel Hinv Hst) as (leaves & El & P & _);
    [unfold fuel; lia|].
  exists leaves. split; assumption.
Qed.

(** X5: every step allocates four quadrants and none is ever dropped:
    after [k] steps the store holds [1 + 4 * k] quadrants, [1 + 3 * k]
    of them without children. *)
Theorem store_size_after_steps image scale k :
  exists m0 m, init image scale = Some m0 /\ steps k m0 = Some m /\
    length (QuadModel.objs m) = (1 + 4 * k)%nat /\
    length (filter (childless (QuadModel.objs m)) (seq 0 (length (QuadModel.objs m))))
      = (1 + 3 * k)%nat.
Proof.
  destruct (reachable_store pow_quarter addr image scale k)
    as (m0 & m & E0 & E & Hinv & [Hfr _ _] & Ho & Hh & _).
  exists m0, m. split; [exact E0|]. split; [exact E|]. split; [exact Ho|].
  rewrite <- Hh, <- (length_fmap snd (QuadModel.heap m)).
  apply Permutation_length, NoDup_Permutation.
  - apply list.NoDup_filter, NoDup_seq.
  - apply Hinv.
  - intros i. rewrite Hfr, list_elem_of_filter, elem_of_seq.
    split; [tauto|]. intros Hc. split; [exact Hc|].
    unfold childless in Hc. destruct (QuadModel.objs m !! i) eqn:Ei; [|discriminate].
    apply lookup_lt_Some in Ei. lia.
Qed.

(** X6: the rectangle of every quadrant a scheduler ever makes is
    proper and lies within the image, so that no crop reads outside
    it. *)
Theorem quadrants_lie_within_the_image image scale k :
  exists m0 m, init image scale = Some m0 /\ steps k m0 = Some m /\
    forall i q, QuadModel.objs m !! i = Some q ->
      let '(l, t, r, b) := Quadrant.coords q in
      (0 <= l /\ l <= r /\ r <= Z.of_nat (fst (PIL.size image))) /\
      (0 <= t /\ t <= b /\ b <= Z.of_nat (snd (PIL.size image))).
Proof.
  destruct (reachable_store pow_quarter addr image scale k)
    as (m0 & m & E0 & E & _ & [_ _ Hins] & _ & _ & Hi & _).
  exists m0, m. split; [exact E0|]. split; [exact E|].
  intros i q Hq.
  pose proof (proj1 (list.Forall_forall _ _) Hins q (list_elem_of_lookup_2 _ _ _ Hq)) as H.
  rewrite Hi in H. unfold QuadImage.init in H.
  destruct (PIL.size image) as [w h]. exact H.
Qed.

(** X7: but for its children, no quadrant changes once it is made: in
    every state a fresh scheduler reaches, a quadrant of the store with
    its children taken away is what the constructor returns for its
    rectangle and depth. *)
Theorem quadrants_stay_as_constructed image scale k :
  exists m0 m, init image scale = Some m0 /\ steps k m0 = Some m /\
    forall i q, QuadModel.objs m !! i = Some q ->
      Quadrant.init image (Quadrant.coords q) (Quadrant.depth q)
      = Some (Quadrant.set_children q []).
Proof.
  destruct (reachable_store pow_quarter addr image scale k)
    as (m0 & m & E0 & E & _ & [_ Hcon _] & _ & _ & Hi & _).
  exists m0, m. split; [exact E0|]. split; [exact E|].
  intros i q Hq.
  destruct (proj1 (list.Forall_forall _ _) Hcon q (list_elem_of_lookup_2 _ _ _ Hq))
    as (q0 & Eq & Hq0).
  rewrite Hi in Eq. unfold QuadImage.init in Eq.
  destruct (PIL.size image) as [w h]. simpl in Eq. rewrite Eq. f_equal.
  destruct (init_eq image (Quadrant.coords q) (Quadrant.depth q)) as (c & e & Eq').
  rewrite Eq in Eq'. injection Eq' as ->. rewrite Hq0. reflexivity.
Qed.

(** X8: the quadrants of the frontier share out the image: in every
    state a fresh scheduler reaches their areas add up to the area of
    the image. *)
Theorem frontier_areas_sum_to_the_image_area image scale k :
  exists m0 m, init image scale = Some m0 /\ steps k m0 = Some m /\
    py_sum (area_at (QuadModel.objs m) <$> (QuadModel.heap m).*2)
    = Z.of_nat (fst (PIL.size image)) * Z.of_nat (snd (PIL.size image)).
Proof.
  destruct (reachable_store pow_quarter addr image scale k)
    as (m0 & m & E0 & E & Hinv & Hst & _ & _ & Hi & _).
  exists m0, m. split; [exact E0|]. split; [exact E|].
  destruct (leaves_frontier pow_quarter addr m (length (QuadModel.objs m)) Hinv Hst)
    as (leaves & _ & P & Ha); [lia|].
  rewrite <- (py_sum_perm _ _ (fmap_Permutation (area_at (QuadModel.objs m)) _ _ P)).
  rewrite Ha, Hi. unfold QuadImage.init.
  destruct (PIL.size image) as [w h]. reflexivity.
Qed.
End reachable_states.

(** ** The range of the model error *)

Section error_range.
Variable pow_quarter : Z -> Q.
Variable addr : nat -> Z.

Abbreviation steps := (QuadModel.steps pow_quarter addr).
Abbreviation init := (QuadModel.init pow_quarter addr).
Abbreviation Inv := (Inv pow_quarter addr).

Lemma error_at_bounds m i :
  Inv m -> Inv_store m ->
  (0 <= error_at (QuadModel.objs m) i
     <= 65025 * inject_Z (area_at (QuadModel.objs m) i))%Q.
Proof.
  intros Hinv [_ Hcon _]. unfold error_at, area_at.
  destruct (QuadModel.objs m !! i) as [q|] eqn:Hq; simpl;
    [|change (inject_Z 0) with 0%Q; lra].
  destruct (proj1 (list.Forall_forall _ _) Hcon q (list_elem_of_lookup_2 _ _ _ Hq))
    as (q0 & Eq & Hq0).
  pose proof (init_error_range _ _ _ _ Eq) as He.
  assert (Ee : Quadrant.error q = Quadrant.error q0) by (rewrite Hq0; reflexivity).
  destruct (inv_tree _ _ _ Hinv i q Hq) as (Hbox & Ha & _).
  pose proof (compute_area_nonneg _ Hbox) as Hn. rewrite <- Ha in Hn.
  rewrite Zle_Qle in Hn. change (inject_Z 0) with 0%Q in Hn.
  unfold weighted_error. rewrite Ee.
  destruct He as [He1 He2]. split.
  - apply Qmult_le_0_compat; assumption.
  - apply Qmult_le_compat_r; assumption.
Qed.

(** The model error of a state that satisfies the invariants. *)
Lemma model_error_bounds m :
  Inv m -> Inv_store m ->
  let n := QuadImage.width (QuadModel.quad_im m) * QuadImage.height (QuadModel.quad_im m) in
  (0 <= QuadModel.model_error m <= 130050 * inject_Z n)%Q.
Proof.
  intros Hinv Hst n.
  destruct (leaves_frontier pow_quarter addr m (length (QuadModel.objs m)) Hinv Hst)
    as (leaves & _ & P & Ha); [lia|].
  rewrite (py_sum_perm _ _ (fmap_Permutation (area_at (QuadModel.objs m)) _ _ P)) in Ha.
  fold n in Ha.
  pose proof (Qsum_bounds (error_at (QuadModel.objs m)) (area_at (QuadModel.objs m))
                65025 (QuadModel.heap m).*2
                (fun i _ => error_at_bounds m i Hinv Hst)) as Hf.
  rewrite Ha in Hf. fold (frontier_error (QuadModel.objs m) (QuadModel.heap m)) in Hf.
  pose proof (error_at_bounds m 0%nat Hinv Hst) as Hr.
  assert (Har : area_at (QuadModel.objs m) 0 = n).
  { destruct (inv_root_box _ _ _ Hinv) as (rootq & Hroot & Hbox).
    unfold area_at. rewrite Hroot. simpl.
    destruct (inv_tree _ _ _ Hinv 0%nat rootq Hroot) as (_ & -> & _).
    rewrite Hbox. unfold n. simpl. ring. }
  rewrite Har in Hr. rewrite (inv_error _ _ _ Hinv). lra.
Qed.

End error_range.

(** ** The operations of the frontier *)

Section frontier_operations.
Variable pow_quarter : Z -> Q.
Variable addr : nat -> Z.

Abbreviation push := (QuadModel.push pow_quarter addr).
Abbreviation pop := (QuadModel.pop addr).
Abbreviation split := (QuadModel.split pow_quarter addr).
Abbreviation tuple_lt := (QuadModel.tuple_lt addr).
Abbreviation Inv := (Inv pow_quarter addr).
Abbreviation score := (score pow_quarter).
Abbreviation priority := (priority pow_quarter).


(** X12: [pop] and [split] fail on the empty heap (the [IndexError] of
    [heappop]) and on no other. *)
Theorem pop_fails_on_the_empty_heap_only m :
  Inv m ->
  (pop m = None <-> QuadModel.heap m = []) /\
  (split m = None <-> QuadModel.heap m = []).
Proof.
  intros Hinv. split; split.
  - intros Hfail. destruct (QuadModel.heap m) eqn:Eh; [reflexivity|].
    destruct (pop_inv pow_quarter addr m Hinv) as (quad & q & m' & E & _);
      [rewrite Eh; discriminate|congruence].
  - intros Hnil. unfold QuadModel.pop. rewrite Hnil. reflexivity.
  - intros Hfail. destruct (QuadModel.heap m) eqn:Eh; [reflexivity|].
    destruct (split_inv pow_quarter addr m Hinv) as (m' & E & _);
      [rewrite Eh; discriminate|congruence].
  - intros Hnil. unfold QuadModel.split, QuadModel.pop. rewrite Hnil. reflexivity.
Qed.


End frontier_operations.

(** ** Paths *)

Lemma contains_app c s1 s2 :
  str.contains c (String.append s1 s2) = str.contains c s1 || str.contains c s2.
Proof.
  induction s1 as [|a s1 IH]; simpl; [reflexivity|].
  rewrite IH, orb_assoc. reflexivity.
Qed.

Lemma rpartition_None sep s :
  str.rpartition sep s = None <-> str.contains sep s = false.
Proof.
  induction s as [|a s IH]; simpl; [tauto|].
  destruct (str.rpartition sep s) as [[before after]|].
  - split; [discriminate|]. intros H. apply orb_false_iff in H as [_ H].
    apply IH in H. discriminate.
  - rewrite (proj1 IH eq_refl), orb_false_r.
    destruct (Ascii.eqb a sep); split; try discriminate; reflexivity.
Qed.

Lemma rpartition_Some sep s before after :
  str.rpartition sep s = Some (before, after) ->
  s = String.append before (String.String sep after) /\
  str.contains sep after = false.
Proof.
  revert before. induction s as [|a s IH]; intros before; simpl; [discriminate|].
  destruct (str.rpartition sep s) as [[b1 a1]|] eqn:E.
  - intros [= <- <-]. destruct (IH b1 eq_refl) as [-> H]. split; [reflexivity|exact H].
  - destruct (Ascii.eqb_spec a sep) as [->|_]; [|discriminate].
    intros [= <- <-]. split; [reflexivity|]. apply rpartition_None, E.
Qed.

Lemma rpartition_app sep before after :
  str.contains sep after = false ->
  str.rpartition sep (String.append before (String.String sep after))
  = Some (before, after).
Proof.
  intros H. apply rpartition_None in H.
  induction before as [|a before IH]; simpl.
  - rewrite H, Ascii.eqb_refl. reflexivity.
  - rewrite IH. reflexivity.
Qed.

(** The part of a path after its last ['/'], the whole of it where it
    has none. *)
Lemma basename_of_stem stem :
  (if str.contains "/"%char stem then str.rsplit stem "/"%char !! 1%nat
   else Some stem)
  = Some (match str.rpartition "/"%char stem with
          | Some (_, name) => name
          | None => stem
          end).
Proof.
  unfold str.rsplit.
  destruct (str.rpartition "/"%char stem) as [[dir name]|] eqn:E.
  - destruct (str.contains "/"%char stem) eqn:Ec; [reflexivity|].
    apply rpartition_None in Ec. congruence.
  - apply rpartition_None in E. rewrite E. reflexivity.
Qed.

Lemma rsplit_head s sep :
  str.rsplit s sep !! 0%nat =
  Some (match str.rpartition sep s with
        | Some (before, _) => before
        | None => s
        end).
Proof. unfold str.rsplit. destruct (str.rpartition sep s) as [[a b]|]; reflexivity. Qed.

(** [fileprefix] by the last ['.'] of the path and the last ['/'] before
    it. *)
Lemma fileprefix_eq image_path :
  QuadModel.fileprefix image_path =
  Some (let stem := match str.rpartition "."%char image_path with
                    | Some (stem, _) => stem
                    | None => image_path
                    end in
        match str.rpartition "/"%char stem with
        | Some (_, name) => name
        | None => stem
        end).
Proof.
  unfold QuadModel.fileprefix. rewrite rsplit_head. simpl.
  apply basename_of_stem.
Qed.

(** X15: [fileprefix] is defined for every path (no index is out of
    range), and it never holds a ['/'], nor does the path
    [fileprefix_output.png] of the final picture, which is therefore
    written to the working directory. *)
Theorem fileprefix_has_no_directory image_path :
  exists prefix, QuadModel.fileprefix image_path = Some prefix /\
    str.contains "/"%char prefix = false /\
    str.contains "/"%char (String.append prefix "_output.png"%string) = false.
Proof.
  rewrite fileprefix_eq. eexists. split; [reflexivity|]. cbv zeta.
  match goal with |- ?P /\ _ => assert (H : P) end.
  { destruct (str.rpartition "/"%char _) as [[dir name]|] eqn:E.
    - apply rpartition_Some in E. tauto.
    - apply rpartition_None, E. }
  split; [exact H|]. rewrite contains_app, H. reflexivity.
Qed.

(** X16: the prefix of a path [stem.rest], where [rest] has no ['.'],
    is the part of [stem] after its last ['/'], whether [rest] is an
    extension or not: of [dir/name.ext] it is [name], but of
    [stem.d/name], with the only ['.'] in a directory, it is the end of
    [stem] and not [name]. *)
Theorem fileprefix_of_a_path_with_a_dot stem rest :
  str.contains "."%char rest = false ->
  (str.contains "/"%char stem = false ->
     QuadModel.fileprefix (String.append stem (String.String "."%char rest))
     = Some stem) /\
  (forall dir name, stem = String.append dir (String.String "/"%char name) ->
     str.contains "/"%char name = false ->
     QuadModel.fileprefix (String.append stem (String.String "."%char rest))
     = Some name).
Proof.
  intros Hrest. rewrite fileprefix_eq, (rpartition_app _ _ _ Hrest). cbv zeta. split.
  - intros H. apply rpartition_None in H. rewrite H. reflexivity.
  - intros dir name -> H. rewrite (rpartition_app _ _ _ H). reflexivity.
Qed.

(** X17: the prefix of a path without ['.'] is the part after its last
    ['/']. *)
Theorem fileprefix_of_a_path_without_dot image_path :
  str.contains "."%char image_path = false ->
  (str.contains "/"%char image_path = false ->
     QuadModel.fileprefix image_path = Some image_path) /\
  (forall dir name, image_path = String.append dir (String.String "/"%char name) ->
     str.contains "/"%char name = false ->
     QuadModel.fileprefix image_path = Some name).
Proof.
  intros Hdot. rewrite fileprefix_eq, (proj2 (rpartition_None _ _) Hdot). cbv zeta. split.
  - intros H. apply rpartition_None in H. rewrite H. reflexivity.
  - intros dir name -> H. rewrite (rpartition_app _ _ _ H). reflexivity.
Qed.

(** ** The frames of [recurse] *)

Lemma frame_plan_range errs : forall prev i j,
  j ∈ frame_plan prev i errs -> (i <= j < i + length errs)%nat.
Proof.
  induction errs as [|e errs IH]; intros prev i j; simpl.
  - intros H. apply elem_of_nil in H. contradiction.
  - destruct (QuadModel.frame_due prev e).
    + intros [->|H]%elem_of_cons; [lia|]. apply IH in H. lia.
    + intros H. apply IH in H. lia.
Qed.

Lemma frame_plan_sorted errs : forall prev i a b ja jb,
  frame_plan prev i errs !! a = Some ja -> frame_plan prev i errs !! b = Some jb ->
  (a < b)%nat -> (ja < jb)%nat.
Proof.
  induction errs as [|e errs IH]; intros prev i a b ja jb; simpl; [discriminate|].
  destruct (QuadModel.frame_due prev e); [|apply IH].
  destruct a as [|a], b as [|b]; simpl; try lia.
  - intros [= <-] Hb _. apply list_elem_of_lookup_2, frame_plan_range in Hb. lia.
  - intros Ha Hb Hab. apply (IH (Some e) (S i) a b); [assumption|assumption|lia].
Qed.

Lemma frame_before_none plan k :
  (forall j, j ∈ plan -> (k <= j)%nat) -> frame_before plan k = None.
Proof.
  intros H. unfold frame_before. apply last_None.
  induction plan as [|j plan IH]; [reflexivity|].
  rewrite list.filter_cons_False; [|specialize (H j ltac:(left)); lia].
  apply IH. intros j' Hj'. apply H. right. exact Hj'.
Qed.

Lemma frame_before_cons i plan k :
  (i < k)%nat ->
  frame_before (i :: plan) k =
  match frame_before plan k with Some j => Some j | None => Some i end.
Proof.
  intros H. unfold frame_before. rewrite list.filter_cons_True by exact H.
  apply last_cons.
Qed.

Lemma frame_before_elem plan k j :
  frame_before plan k = Some j -> j ∈ plan /\ (j < k)%nat.
Proof.
  unfold frame_before. intros H. apply last_Some_elem_of in H.
  apply list_elem_of_filter in H. tauto.
Qed.

(** An iteration writes a frame when the error has fallen by more than
    the threshold since the frame before it, or since [prev] where it
    has none before it. *)
Lemma frame_plan_due errs : forall prev i k e,
  (i <= k)%nat -> errs !! (k - i)%nat = Some e ->
  (k ∈ frame_plan prev i errs <->
   QuadModel.frame_due
     (match frame_before (frame_plan prev i errs) k with
      | Some j => errs !! (j - i)%nat
      | None => prev
      end) e = true).
Proof.
  induction errs as [|e0 errs IH]; intros prev i k e Hk He; [discriminate|].
  assert (Hshift : forall j, (S i <= j)%nat -> (e0 :: errs) !! (j - i)%nat = errs !! (j - S i)%nat).
  { intros j Hj. replace (j - i)%nat with (S (j - S i)) by lia. reflexivity. }
  assert (Hlow : forall p j, j ∈ frame_plan p (S i) errs -> (S i <= j)%nat).
  { intros p j Hj. apply frame_plan_range in Hj. lia. }
  cbn [frame_plan].
  destruct (decide (k = i)) as [->|Hne].
  - replace (i - i)%nat with 0%nat in He by lia. injection He as ->.
    destruct (QuadModel.frame_due prev e) eqn:Ed.
    + rewrite frame_before_none.
      * split; [intros _; exact Ed|intros _; left].
      * intros j [->|Hj]%elem_of_cons; [lia|]. apply Hlow in Hj. lia.
    + rewrite frame_before_none by (intros j Hj; apply Hlow in Hj; lia).
      rewrite Ed. split; [|discriminate].
      intros Hin. apply Hlow in Hin. lia.
  - assert (Hk' : (S i <= k)%nat) by lia.
    rewrite Hshift in He by exact Hk'.
    destruct (QuadModel.frame_due prev e0) eqn:Ed.
    + rewrite frame_before_cons by lia.
      rewrite elem_of_cons, (IH (Some e0) (S i) k e Hk' He).
      destruct (frame_before (frame_plan (Some e0) (S i) errs) k) as [j|] eqn:Ej.
      * apply frame_before_elem in Ej as [Hj _]. apply Hlow in Hj.
        rewrite Hshift by exact Hj. split; [intros [?|?]; [lia|assumption]|auto].
      * replace (i - i)%nat with 0%nat by lia. simpl.
        split; [intros [?|?]; [lia|assumption]|auto].
    + rewrite (IH prev (S i) k e Hk' He).
      destruct (frame_before (frame_plan prev (S i) errs) k) as [j|] eqn:Ej; [|reflexivity].
      apply frame_before_elem in Ej as [Hj _]. apply Hlow in Hj.
      rewrite Hshift by exact Hj. reflexivity.
Qed.

Section recurse.
Variable pow_quarter : Z -> Q.
Variable addr : nat -> Z.

Abbreviation split := (QuadModel.split pow_quarter addr).
Abbreviation steps := (QuadModel.steps pow_quarter addr).
Abbreviation init := (QuadModel.init pow_quarter addr).
Abbreviation recurse := (QuadModel.recurse pow_quarter addr).
Abbreviation Inv := (Inv pow_quarter addr).
Abbreviation error_after := (error_after pow_quarter addr).
Abbreviation frame_of := (frame_of pow_quarter addr).

(** [render] succeeds where [get_leaf_nodes] has room for the store. *)
Lemma render_total m fuel :
  Inv m -> (length (QuadModel.objs m) <= fuel)%nat ->
  exists canvas, QuadModel.render fuel m = Some (canvas, m).
Proof.
  intros [Hr Ht _ _ _ _ (rootq & Hroot & Hbox) _] Hfuel.
  destruct (leaves_tile _ Ht fuel 0%nat rootq Hroot ltac:(lia))
    as (leaves & nodes & El & _ & _ & Hlen & _).
  destruct (boxes_of_full _ _ Hlen) as (quads & Eq & _).
  unfold QuadModel.render. rewrite Hr, El. simpl. rewrite Eq. simpl.
  eexists. reflexivity.
Qed.

Section loop.
Variable fuel : nat.
Variable fileprefix : String.string.
Variable tempdir : option String.string.

Abbreviation body := (QuadModel.recurse_body pow_quarter addr fuel fileprefix tempdir).
Abbreviation dir := (default ""%string tempdir).

Lemma recurse_body_None i : body None i = None.
Proof. reflexivity. Qed.

Lemma foldl_body_None l : foldl body None l = None.
Proof. induction l as [|i l IH]; [reflexivity|exact IH]. Qed.

(** One turn of the loop. *)
Lemma recurse_body_step m saved prev i e canvas m1 :
  QuadModel.compute_average_model_error m = Some e ->
  QuadModel.render fuel m = Some (canvas, m) ->
  split m = Some m1 ->
  body (Some (m, saved, prev)) i =
  Some (m1,
        saved ++ (if QuadModel.frame_due prev e && str.truthy tempdir
                  then [(QuadModel.frame_path dir i fileprefix, canvas)] else []),
        if QuadModel.frame_due prev e then Some e else prev).
Proof.
  intros He Hr Hs. unfold QuadModel.recurse_body. simpl. rewrite He. simpl.
  destruct (QuadModel.frame_due prev e); simpl.
  - destruct (str.truthy tempdir); simpl.
    + rewrite Hr. simpl. rewrite Hs. reflexivity.
    + rewrite Hs. simpl. rewrite app_nil_r. reflexivity.
  - rewrite Hs. simpl. rewrite app_nil_r. reflexivity.
Qed.

Lemma frame_of_shift m m1 i plan frames :
  split m = Some m1 ->
  (forall j, j ∈ plan -> (S i <= j)%nat) ->
  Forall2 (frame_of fuel m1 dir fileprefix (S i)) plan frames ->
  Forall2 (frame_of fuel m dir fileprefix i) plan frames.
Proof.
  intros Hs Hlow HF. induction HF as [|j f plan frames (mj & canvas & E & Hr & ->) _ IH].
  - constructor.
  - constructor; [|apply IH; intros j' Hj'; apply Hlow; right; exact Hj'].
    exists mj, canvas. split; [|split; [exact Hr|reflexivity]].
    specialize (Hlow j ltac:(left)).
    replace (j - i)%nat with (S (j - S i)) by lia. simpl. rewrite Hs. exact E.
Qed.

(** The loop of [recurse], [n] turns from the state [m] of iteration
    [i]. *)
Lemma recurse_loop n : forall m i saved prev,
  Inv m -> Inv_store m -> QuadModel.heap m <> [] ->
  QuadImage.width (QuadModel.quad_im m) * QuadImage.height (QuadModel.quad_im m) <> 0 ->
  (length (QuadModel.objs m) + 4 * n <= fuel)%nat ->
  exists m' errs frames prev',
    foldl body (Some (m, saved, prev)) (seqZ (Z.of_nat i) (Z.of_nat n))
      = Some (m', saved ++ frames, prev') /\
    steps n m = Some m' /\ Inv m' /\
    length (QuadModel.objs m') = (length (QuadModel.objs m) + 4 * n)%nat /\
    length errs = n /\
    (forall k e, errs !! k = Some e -> error_after m k = Some e) /\
    (if str.truthy tempdir
     then Forall2 (frame_of fuel m dir fileprefix i) (frame_plan prev i errs) frames
     else frames = []).
Proof.
  induction n as [|n IH]; intros m i saved prev Hinv Hst Hne Hsz Hfuel.
  - exists m, [], [], prev. simpl. rewrite app_nil_r.
    split; [reflexivity|]. split; [reflexivity|]. split; [exact Hinv|].
    split; [lia|]. split; [reflexivity|]. split; [intros k e; discriminate|].
    destruct (str.truthy tempdir); [constructor|reflexivity].
  - rewrite seqZ_cons by lia.
    replace (Z.succ (Z.of_nat i)) with (Z.of_nat (S i)) by lia.
    replace (Z.pred (Z.of_nat (S n))) with (Z.of_nat n) by lia.
    cbn [foldl].
    assert (He : exists e, QuadModel.compute_average_model_error m = Some e).
    { unfold QuadModel.compute_average_model_error.
      destruct (Z.eqb_spec (QuadImage.width (QuadModel.quad_im m)
                            * QuadImage.height (QuadModel.quad_im m)) 0);
        [contradiction|eauto]. }
    destruct He as [e He].
    destruct (render_total m fuel Hinv ltac:(lia)) as [canvas Hr].
    destruct (split_store pow_quarter addr m Hinv Hst Hne)
      as (m1 & Hs & Hinv1 & Hst1 & Ho1 & Hh1 & Hi1 & _).
    rewrite (recurse_body_step m saved prev (Z.of_nat i) e canvas m1 He Hr Hs).
    set (new := if QuadModel.frame_due prev e && str.truthy tempdir
                then [(QuadModel.frame_path dir (Z.of_nat i) fileprefix, canvas)] else []).
    set (prev1 := if QuadModel.frame_due prev e then Some e else prev).
    destruct (IH m1 (S i) (saved ++ new) prev1 Hinv1 Hst1)
      as (m' & errs & frames & prev' & Ef & Es & Hinv' & Ho' & Hl & Herr & Hfr).
    { intros Hnil. rewrite Hnil in Hh1. simpl in Hh1. lia. }
    { rewrite Hi1. exact Hsz. }
    { lia. }
    exists m', (e :: errs), (new ++ frames), prev'.
    split; [rewrite Ef, app_assoc; reflexivity|].
    split; [simpl; rewrite Hs; exact Es|]. split; [exact Hinv'|].
    split; [lia|]. split; [simpl; lia|].
    split.
    { intros [|k] ek; simpl.
      - intros [= <-]. unfold error_after. simpl. exact He.
      - intros Hk. apply Herr in Hk. unfold error_after in *. simpl.
        rewrite Hs. exact Hk. }
    unfold new, prev1 in *. clear new prev1.
    destruct (str.truthy tempdir) eqn:Et.
    + assert (Hlow : forall p j, j ∈ frame_plan p (S i) errs -> (S i <= j)%nat).
      { intros p j Hj. apply frame_plan_range in Hj. lia. }
      cbn [frame_plan]. destruct (QuadModel.frame_due prev e); simpl.
      * constructor.
        -- exists m, canvas. replace (i - i)%nat with 0%nat by lia.
           split; [reflexivity|]. split; [exact Hr|reflexivity].
        -- eapply frame_of_shift; [exact Hs|apply Hlow|exact Hfr].
      * eapply frame_of_shift; [exact Hs|apply Hlow|exact Hfr].
    + rewrite andb_false_r. simpl. exact Hfr.
Qed.
End loop.
End recurse.

Lemma frame_plan_length errs : forall prev i,
  (length (frame_plan prev i errs) <= length errs)%nat.
Proof.
  induction errs as [|e errs IH]; intros prev i; simpl; [lia|].
  destruct (QuadModel.frame_due prev e); simpl.
  - specialize (IH (Some e) (S i)). lia.
  - specialize (IH prev (S i)). lia.
Qed.

Lemma py_range_to_nat (n : Z) : py_range 0 n = seqZ (Z.of_nat 0) (Z.of_nat (Z.to_nat n)).
Proof. unfold py_range, seqZ. rewrite Z.sub_0_r, Nat2Z.id. reflexivity. Qed.

Section recurse_theorems.
Variable pow_quarter : Z -> Q.
Variable addr : nat -> Z.

Abbreviation split := (QuadModel.split pow_quarter addr).
Abbreviation steps := (QuadModel.steps pow_quarter addr).
Abbreviation init := (QuadModel.init pow_quarter addr).
Abbreviation recurse := (QuadModel.recurse pow_quarter addr).
Abbreviation Inv := (Inv pow_quarter addr).
Abbreviation error_after := (error_after pow_quarter addr).
Abbreviation frame_of := (frame_of pow_quarter addr).

(** [recurse] on the fresh scheduler of an image that is not empty. *)
Lemma recurse_fresh image scale fileprefix iterations tempdir fuel :
  (0 < fst (PIL.size image))%nat -> (0 < snd (PIL.size image))%nat ->
  (1 + 4 * Z.to_nat iterations <= fuel)%nat ->
  exists m0 m errs frames canvas,
    init image scale = Some m0 /\
    recurse fuel m0 fileprefix iterations tempdir
      = Some (frames ++ [(String.append fileprefix "_output.png"%string, canvas)], m) /\
    steps (Z.to_nat iterations) m0 = Some m /\
    QuadModel.render fuel m = Some (canvas, m) /\
    length errs = Z.to_nat iterations /\
    (forall k e, errs !! k = Some e -> error_after m0 k = Some e) /\
    (if str.truthy tempdir
     then Forall2 (frame_of fuel m0 (default ""%string tempdir) fileprefix 0)
                  (frame_plan None 0 errs) frames
     else frames = []).
Proof.
  intros Hw Hh Hfuel.
  destruct (init_store pow_quarter addr image scale)
    as (m0 & E0 & Hinv0 & Hst0 & Ho0 & Hh0 & Hi0 & _).
  destruct (recurse_loop pow_quarter addr fuel fileprefix tempdir
              (Z.to_nat iterations) m0 0%nat [] None Hinv0 Hst0)
    as (m & errs & frames & prev' & Ef & Es & Hinv & Ho & Hl & Herr & Hfr).
  { intros Hnil. rewrite Hnil in Hh0. discriminate. }
  { rewrite Hi0. unfold QuadImage.init. destruct (PIL.size image) as [w h].
    simpl in *. nia. }
  { lia. }
  destruct (render_total pow_quarter addr m fuel Hinv ltac:(lia)) as [canvas Hr].
  exists m0, m, errs, frames, canvas. split; [exact E0|].
  split.
  { unfold QuadModel.recurse. rewrite py_range_to_nat, Ef. simpl. rewrite Hr. reflexivity. }
  auto 10.
Qed.

(** X18: on an image that is not empty [recurse] makes [iterations]
    steps (none where [iterations] is negative) and then saves the
    rendering of the state it has reached as [fileprefix_output.png];
    it saves at most one frame per iteration before that, and none
    where [tempdir] is [None] or empty.  Neither the final state nor the
    final picture depend on [tempdir]. *)
Theorem recurse_makes_the_steps image scale fileprefix iterations tempdir extra :
  (0 < fst (PIL.size image))%nat -> (0 < snd (PIL.size image))%nat ->
  let n := Z.to_nat iterations in
  let fuel := (1 + 4 * n + extra)%nat in
  exists m0 m frames canvas,
    init image scale = Some m0 /\
    recurse fuel m0 fileprefix iterations tempdir
      = Some (frames ++ [(String.append fileprefix "_output.png"%string, canvas)], m) /\
    steps n m0 = Some m /\
    QuadModel.render fuel m = Some (canvas, m) /\
    (length frames <= n)%nat /\
    (str.truthy tempdir = false -> frames = []).
Proof.
  intros Hw Hh n fuel.
  destruct (recurse_fresh image scale fileprefix iterations tempdir fuel Hw Hh)
    as (m0 & m & errs & frames & canvas & E0 & Er & Es & Hr & Hl & _ & Hfr);
    [unfold fuel, n; lia|].
  exists m0, m, frames, canvas.
  split; [exact E0|]. split; [exact Er|]. split; [exact Es|]. split; [exact Hr|].
  destruct (str.truthy tempdir).
  - split; [|discriminate]. apply Forall2_length in Hfr. rewrite <- Hfr.
    pose proof (frame_plan_length errs None 0). unfold n. lia.
  - subst frames. split; [simpl; lia|reflexivity].
Qed.


(** X20: on an image without pixels [recurse] fails as soon as it is
    asked for a step, with or without [tempdir]: the average error is
    a division by the area of the image (a [ZeroDivisionError]). *)
Theorem recurse_fails_on_an_empty_image image scale fuel fileprefix iterations tempdir :
  (fst (PIL.size image) = 0 \/ snd (PIL.size image) = 0)%nat ->
  0 < iterations ->
  exists m0, init image scale = Some m0 /\
    QuadModel.compute_average_model_error m0 = None /\
    recurse fuel m0 fileprefix iterations tempdir = None.
Proof.
  intros Hsz Hit.
  destruct (init_store pow_quarter addr image scale)
    as (m0 & E0 & _ & _ & _ & _ & Hi0 & _).
  exists m0. split; [exact E0|].
  assert (He : QuadModel.compute_average_model_error m0 = None).
  { unfold QuadModel.compute_average_model_error. rewrite Hi0.
    unfold QuadImage.init. destruct (PIL.size image) as [w h]. simpl in *.
    destruct (Z.eqb_spec (Z.of_nat w * Z.of_nat h) 0); [reflexivity|nia]. }
  split; [exact He|].
  unfold QuadModel.recurse, py_range. rewrite seqZ_cons by lia. cbn [foldl].
  unfold QuadModel.recurse_body at 2. simpl. rewrite He. simpl.
  rewrite foldl_body_None. reflexivity.
Qed.
End recurse_theorems.

(** ** Instances of the theorems *)

Lemma split_partitions_the_quadrant_witness :
  exists objs' t_l t_r b_l b_r,
    Quadrant.split red_blue [odd_quadrant] 0 = Some ([1; 2; 3; 4]%nat, objs') /\
    Quadrant.children <$> objs' !! 0%nat = Some [1; 2; 3; 4]%nat /\
    objs' !! 1%nat = Some t_l /\ objs' !! 2%nat = Some t_r /\
    objs' !! 3%nat = Some b_l /\ objs' !! 4%nat = Some b_r /\
    length objs' = 5%nat /\
    let boxes := Quadrant.coords <$> [t_l; t_r; b_l; b_r] in
    boxes = [(0, 0, 3, 2); (3, 0, 7, 2); (0, 2, 3, 5); (3, 2, 7, 5)] /\
    (forall i j bi bj p, boxes !! i = Some bi -> boxes !! j = Some bj -> i <> j ->
       ~ (in_box p bi /\ in_box p bj)) /\
    (forall p, in_box p (0, 0, 7, 5) <-> exists c, c ∈ boxes /\ in_box p c) /\
    Quadrant.area t_l + Quadrant.area t_r + Quadrant.area b_l + Quadrant.area b_r
      = (7 - 0) * (5 - 0).
Proof.
  apply (split_partitions_the_quadrant red_blue [odd_quadrant] 0 odd_quadrant 0 0 7 5).
  - reflexivity.
  - vm_compute. reflexivity.
  - lia.
  - lia.
Defined.


Lemma is_heap_singleton {A} (cmp_lt : A -> A -> bool) (x : A) : is_heap cmp_lt [x].
Proof.
  intros i Hi a b Ha _. destruct i as [|i]; [lia|]. discriminate Ha.
Qed.

Lemma fresh_red_blue_frontier_ok :
  frontier_ok pow_quarter_floor addr_of_index fresh_red_blue.
Proof.
  destruct (init_inv pow_quarter_floor addr_of_index red_blue 1)
    as (m & rootq & E & Hinv & _).
  assert (m = fresh_red_blue) as <- by (unfold fresh_red_blue; rewrite E; reflexivity).
  apply inv_frontier_ok, Hinv.
Qed.



Lemma red_blue_left_half x y :
  0 <= x < 4 -> 0 <= y < 8 -> PIL.getpixel red_blue x y = (255, 0, 0).
Proof.
  intros Hx Hy. unfold PIL.getpixel, red_blue. cbn [PIL.size PIL.data fst snd].
  change (Z.of_nat 8) with 8.
  rewrite (proj2 (Z.leb_le 0 x)), (proj2 (Z.ltb_lt x 8)),
    (proj2 (Z.leb_le 0 y)), (proj2 (Z.ltb_lt y 8)), (proj2 (Z.ltb_lt x 4)) by lia.
  reflexivity.
Qed.

Lemma uniform_region_has_its_color_and_no_error_witness :
  exists q, Quadrant.init red_blue (0, 0, 4, 8) 0 = Some q /\
    Quadrant.color q = (255, 0, 0) /\ (Quadrant.error q == 0)%Q.
Proof.
  apply (uniform_region_has_its_color_and_no_error red_blue 0 0 4 8 0 255 0 0);
    [lia|lia|lia|lia|lia|exact red_blue_left_half].
Defined.

Lemma split_of_a_thin_quadrant_witness :
  Quadrant.is_leaf (Quadrant.coords thin_quadrant) = true /\
  exists objs' t_l t_r b_l b_r,
    Quadrant.split red_blue [thin_quadrant] 0 = Some (seq 1 4, objs') /\
    objs' !! 1%nat = Some t_l /\ objs' !! 2%nat = Some t_r /\
    objs' !! 3%nat = Some b_l /\ objs' !! 4%nat = Some b_r /\
    Quadrant.coords t_l = (0, 0, 0, 0 + (8 - 0) / 2) /\
    Quadrant.coords b_l = (0, 0 + (8 - 0) / 2, 0, 8) /\
    Quadrant.coords t_r = (0, 0, 1, 0 + (8 - 0) / 2) /\
    Quadrant.coords b_r = (0, 0 + (8 - 0) / 2, 1, 8) /\
    Forall (fun k => Quadrant.area k = 0 /\ Quadrant.color k = (0, 0, 0) /\
                     (Quadrant.error k == 0)%Q) [t_l; b_l].
Proof.
  apply (split_of_a_thin_quadrant red_blue [thin_quadrant] 0 thin_quadrant 0 0 1 8).
  - reflexivity.
  - vm_compute. reflexivity.
  - lia.
Defined.


Lemma fresh_red_blue_inv : Inv pow_quarter_floor addr_of_index fresh_red_blue.
Proof.
  destruct (init_inv pow_quarter_floor addr_of_index red_blue 1)
    as (m & rootq & E & Hinv & _).
  assert (m = fresh_red_blue) as <- by (unfold fresh_red_blue; rewrite E; reflexivity).
  exact Hinv.
Qed.

Lemma red_blue_after_a_step_inv :
  Inv pow_quarter_floor addr_of_index red_blue_after_a_step.
Proof.
  destruct (steps_inv pow_quarter_floor addr_of_index 1 fresh_red_blue fresh_red_blue_inv)
    as (m & E & Hinv & _); [vm_compute; discriminate|].
  assert (m = red_blue_after_a_step) as <-
    by (unfold red_blue_after_a_step; rewrite E; reflexivity).
  exact Hinv.
Qed.

Lemma red_blue_popped_inv : Inv pow_quarter_floor addr_of_index red_blue_popped.
Proof.
  destruct (pop_inv pow_quarter_floor addr_of_index fresh_red_blue fresh_red_blue_inv)
    as (quad & q & m & E & Hinv & _); [vm_compute; discriminate|].
  assert (m = red_blue_popped) as <-
    by (unfold red_blue_popped; rewrite E; reflexivity).
  exact Hinv.
Qed.


Lemma pop_fails_on_the_empty_heap_only_witness :
  (QuadModel.pop addr_of_index fresh_red_blue = None
   <-> QuadModel.heap fresh_red_blue = []) /\
  (QuadModel.split pow_quarter_floor addr_of_index fresh_red_blue = None
   <-> QuadModel.heap fresh_red_blue = []).
Proof.
  apply (pop_fails_on_the_empty_heap_only pow_quarter_floor addr_of_index
           fresh_red_blue fresh_red_blue_inv).
Defined.



Lemma fileprefix_of_a_path_with_a_dot_witness :
  (str.contains "/"%char "my"%string = false ->
     QuadModel.fileprefix "my.dir/cat"%string = Some "my"%string) /\
  (forall dir name, "my"%string = String.append dir (String.String "/"%char name) ->
     str.contains "/"%char name = false ->
     QuadModel.fileprefix "my.dir/cat"%string = Some name).
Proof.
  apply (fileprefix_of_a_path_with_a_dot "my"%string "dir/cat"%string).
  reflexivity.
Defined.

Lemma fileprefix_of_a_path_without_dot_witness :
  (str.contains "/"%char "photos/cat"%string = false ->
     QuadModel.fileprefix "photos/cat"%string = Some "photos/cat"%string) /\
  (forall dir name, "photos/cat"%string = String.append dir (String.String "/"%char name) ->
     str.contains "/"%char name = false ->
     QuadModel.fileprefix "photos/cat"%string = Some name).
Proof.
  apply (fileprefix_of_a_path_without_dot "photos/cat"%string).
  reflexivity.
Defined.

Lemma recurse_makes_the_steps_witness :
  (0 < fst (PIL.size red_blue))%nat /\ (0 < snd (PIL.size red_blue))%nat /\
  exists m0 m frames canvas,
    QuadModel.init pow_quarter_floor addr_of_index red_blue 1 = Some m0 /\
    QuadModel.recurse pow_quarter_floor addr_of_index (1 + 4 * Z.to_nat 3 + 0)
      m0 "cat"%string 3 None
      = Some (frames ++ [(String.append "cat"%string "_output.png"%string, canvas)], m) /\
    QuadModel.steps pow_quarter_floor addr_of_index (Z.to_nat 3) m0 = Some m /\
    QuadModel.render (1 + 4 * Z.to_nat 3 + 0) m = Some (canvas, m) /\
    (length frames <= Z.to_nat 3)%nat /\
    (str.truthy None = false -> frames = []).
Proof.
  assert (Hw : (0 < fst (PIL.size red_blue))%nat) by (simpl; lia).
  assert (Hh : (0 < snd (PIL.size red_blue))%nat) by (simpl; lia).
  split; [exact Hw|]. split; [exact Hh|].
  apply (recurse_makes_the_steps pow_quarter_floor addr_of_index red_blue 1
           "cat"%string 3 None 0%nat Hw Hh).
Defined.


Lemma recurse_fails_on_an_empty_image_witness :
  exists m0, QuadModel.init pow_quarter_floor addr_of_index empty_image 1 = Some m0 /\
    QuadModel.compute_average_model_error m0 = None /\
    QuadModel.recurse pow_quarter_floor addr_of_index 10 m0 "cat"%string 1 None = None.
Proof.
  apply (recurse_fails_on_an_empty_image pow_quarter_floor addr_of_index empty_image 1
           10%nat "cat"%string 1 None).
  - left. reflexivity.
  - lia.
Defined.
